(** * Encodium: a shallow embedding of [encodium/__init__.py]

    The module declares typed, validated record schemas ([Field] and its
    subclasses [String], [Integer], [List], [Boolean], [Bytes]) and a binary
    wire codec.  Python values are embedded as an inductive type, Python
    integers as [Z], [bytes] objects as lists of [byte], exceptions as an
    error monad.

    Layout: Part I holds the model, translated method by method from the
    source (line numbers refer to [encodium/__init__.py]); Part II holds the
    lemmas and the theorems about it; Part III holds further properties of
    the same code. *)

From Stdlib Require Import ZArith Lia List.
From Stdlib Require Import Strings.String Strings.Ascii Strings.Byte.
From coqutil Require Import Byte.
From stdpp Require Import base option list gmap strings sorting.

Local Open Scope Z_scope.

(* ===================================================================== *)
(** * Part I: the model                                                   *)
(* ===================================================================== *)

(** ** Exceptions and the error monad *)

(** The exception classes the module raises itself ([ValidationError],
    line 142, and the plain [Exception] of line 177) and the built-in ones
    its calls into the Python runtime can raise. *)
Inductive exn : Type :=
| ValidationError (msg : string)
| Exception (msg : string)
| NotImplementedError (msg : string)
| TypeError
| AttributeError
| ValueError
| OverflowError
| UnicodeEncodeError
| UnicodeDecodeError.

(** The outcome of a call: a returned value or a raised exception.
    [OutOfFuel] is not a Python outcome: it marks an evaluation that was
    stopped by the recursion bound of the model (see [deserialize_fuel]),
    and is shown never to occur for the bound that [deserialize] uses. *)
Inductive result (A : Type) : Type :=
| Ok (a : A)
| Raise (e : exn)
| OutOfFuel.

Arguments Ok {A} a.
Arguments Raise {A} e.
Arguments OutOfFuel {A}.

#[global] Instance result_ret : MRet result := fun A a => Ok a.
#[global] Instance result_bind : MBind result := fun A B k m =>
  match m with
  | Ok a => k a
  | Raise e => Raise e
  | OutOfFuel => OutOfFuel
  end.
#[global] Instance result_fmap : FMap result := fun A B g m =>
  match m with
  | Ok a => Ok (g a)
  | Raise e => Raise e
  | OutOfFuel => OutOfFuel
  end.

(** ** Bytes, slices and integers *)

Abbreviation bytes := (list byte).

#[global] Instance byte_eq_dec : EqDecision byte := Byte.byte_eq_dec.

(** [len(x)] as a Python integer. *)
Definition len {A : Type} (l : list A) : Z := Z.of_nat (length l).

(** Python's normalisation of a slice bound against a sequence of length
    [n]: negative bounds count from the end, and everything is clamped to
    [0..n]. *)
Definition slice_bound (n i : Z) : Z :=
  if i <? 0 then Z.max 0 (i + n) else Z.min i n.

(** [l[a:b]] *)
Definition slice {A : Type} (l : list A) (a b : Z) : list A :=
  let a' := slice_bound (len l) a in
  let b' := slice_bound (len l) b in
  take (Z.to_nat (b' - a')) (drop (Z.to_nat a') l).

(** [l[a:]] *)
Definition slice_from {A : Type} (l : list A) (a : Z) : list A :=
  drop (Z.to_nat (slice_bound (len l) a)) l.

(** [int.bit_length]: the number of bits of the absolute value. *)
Definition bit_length (i : Z) : Z :=
  if i =? 0 then 0 else Z.log2 (Z.abs i) + 1.

(** The [n] low-order base-256 digits of [v], most significant first.  For
    negative [v] this is the two's complement on [n] bytes. *)
Fixpoint big_endian (n : nat) (v : Z) : bytes :=
  match n with
  | O => []
  | S n' => big_endian n' (v / 256) ++ [byte.of_Z v]
  end.

(** [i.to_bytes(length, 'big', signed=signed)] *)
Definition to_bytes (i : Z) (length : Z) (signed : bool) : result bytes :=
  if length <? 0 then Raise ValueError
  else if signed then
    if (- 2 ^ (8 * length) <=? 2 * i) && (2 * i <? 2 ^ (8 * length))
    then Ok (big_endian (Z.to_nat length) i)
    else Raise OverflowError
  else
    if i <? 0 then Raise OverflowError
    else if i <? 2 ^ (8 * length)
    then Ok (big_endian (Z.to_nat length) i)
    else Raise OverflowError.

(** The unsigned value of a big-endian byte string. *)
Definition unsigned_big_endian (data : bytes) : Z :=
  fold_left (fun acc b => acc * 256 + byte.unsigned b) data 0.

(** [int.from_bytes(data, 'big', signed=signed)] *)
Definition from_bytes (data : bytes) (signed : bool) : Z :=
  let u := unsigned_big_endian data in
  if signed && (2 ^ (8 * len data) <=? 2 * u)
  then u - 2 ^ (8 * len data)
  else u.

(** [bytes([x])] for a list of integers: every item must be in
    [range(256)]. *)
Fixpoint bytes_of_ints (l : list Z) : result bytes :=
  match l with
  | [] => Ok []
  | x :: l' =>
      if (0 <=? x) && (x <? 256)
      then rest ← bytes_of_ints l'; Ok (byte.of_Z x :: rest)
      else Raise ValueError
  end.

(** ** The length codec *)

(** [encode_length], the local function of [Field.serialize] (lines
    290-297); [List.serialize] declares the same function again, with the
    same text (lines 400-407). *)
Definition encode_length (length : Z) : result bytes :=
  encoded_length ← to_bytes length (Z.shiftr (bit_length length + 7) 3) false;
  if 0xfa <=? length then
    let encoded_length_length := len encoded_length in
    if 6 <? encoded_length_length then Raise (ValidationError "length too big")
    else
      prefix ← bytes_of_ints [encoded_length_length + 0xf9];
      Ok (prefix ++ encoded_length)
  else Ok encoded_length.

(** [decode_length], the local function of [Field.deserialize] (lines
    311-318) and, with the same text, of [List.deserialize] (lines
    420-427).  Returns the pair [(length, length_length)]. *)
Definition decode_length (data : bytes) (index : Z) : Z * Z :=
  let length := from_bytes (slice data index (index + 1)) false in
  if 0xfa <=? length then
    (from_bytes (slice data (index + 1) (index + 1 + (length - 0xf9))) false,
     1 + (length - 0xf9))
  else (length, 1).


(** [k] is the minimum number of base-256 digits that represent [n]. *)
Definition minimal_byte_count (n k : Z) : Prop :=
  0 <= k /\ n < 256 ^ k /\ forall j, 0 <= j < k -> 256 ^ j <= n.

(** ** UTF-8 *)

(** A [str] is a sequence of code points.  [s.encode('utf-8')] raises
    [UnicodeEncodeError] on a surrogate; a number outside [0..0x10FFFF] is
    no code point at all and is rejected the same way. *)
Definition utf8_encode_char (c : Z) : result bytes :=
  if c <? 0 then Raise UnicodeEncodeError
  else if c <? 0x80 then Ok [byte.of_Z c]
  else if c <? 0x800 then
    Ok [byte.of_Z (0xC0 + c / 64); byte.of_Z (0x80 + c mod 64)]
  else if c <? 0x10000 then
    if (0xD800 <=? c) && (c <? 0xE000) then Raise UnicodeEncodeError
    else Ok [byte.of_Z (0xE0 + c / 4096);
             byte.of_Z (0x80 + (c / 64) mod 64);
             byte.of_Z (0x80 + c mod 64)]
  else if c <? 0x110000 then
    Ok [byte.of_Z (0xF0 + c / 262144);
        byte.of_Z (0x80 + (c / 4096) mod 64);
        byte.of_Z (0x80 + (c / 64) mod 64);
        byte.of_Z (0x80 + c mod 64)]
  else Raise UnicodeEncodeError.

Fixpoint utf8_encode (s : list Z) : result bytes :=
  match s with
  | [] => Ok []
  | c :: s' =>
      e ← utf8_encode_char c;
      rest ← utf8_encode s';
      Ok (e ++ rest)
  end.

(** The payload of a continuation byte [10xxxxxx], if it is one. *)
Definition utf8_continuation (b : byte) : option Z :=
  let x := byte.unsigned b in
  if (0x80 <=? x) && (x <? 0xC0) then Some (x - 0x80) else None.

(** [data.decode('utf-8')], the strict decoder: overlong forms, surrogates
    and values above [0x10FFFF] raise [UnicodeDecodeError]. *)
Fixpoint utf8_decode (data : bytes) : result (list Z) :=
  match data with
  | [] => Ok []
  | b0 :: r0 =>
      let x0 := byte.unsigned b0 in
      if x0 <? 0x80 then rest ← utf8_decode r0; Ok (x0 :: rest)
      else if x0 <? 0xC2 then Raise UnicodeDecodeError
      else if x0 <? 0xE0 then
        match r0 with
        | b1 :: r1 =>
            match utf8_continuation b1 with
            | Some x1 =>
                rest ← utf8_decode r1; Ok ((x0 - 0xC0) * 64 + x1 :: rest)
            | None => Raise UnicodeDecodeError
            end
        | _ => Raise UnicodeDecodeError
        end
      else if x0 <? 0xF0 then
        match r0 with
        | b1 :: b2 :: r2 =>
            match utf8_continuation b1, utf8_continuation b2 with
            | Some x1, Some x2 =>
                let c := (x0 - 0xE0) * 4096 + x1 * 64 + x2 in
                if (c <? 0x800) || ((0xD800 <=? c) && (c <? 0xE000))
                then Raise UnicodeDecodeError
                else rest ← utf8_decode r2; Ok (c :: rest)
            | _, _ => Raise UnicodeDecodeError
            end
        | _ => Raise UnicodeDecodeError
        end
      else if x0 <? 0xF5 then
        match r0 with
        | b1 :: b2 :: b3 :: r3 =>
            match utf8_continuation b1, utf8_continuation b2,
                  utf8_continuation b3 with
            | Some x1, Some x2, Some x3 =>
                let c := (x0 - 0xF0) * 262144 + x1 * 4096 + x2 * 64 + x3 in
                if (c <? 0x10000) || (0x110000 <=? c)
                then Raise UnicodeDecodeError
                else rest ← utf8_decode r3; Ok (c :: rest)
            | _, _, _ => Raise UnicodeDecodeError
            end
        | _ => Raise UnicodeDecodeError
        end
      else Raise UnicodeDecodeError
  end.

(** ** Python values *)

(** The values that flow through the module: [None], [bool], [int], [str]
    (code points), [bytes], [list], and the instances of the record types
    that [Field.__init__] builds (lines 185-238): [VInstance cls d] is an
    instance of the type made for the [Field] subclass named [cls], with
    [d] its [__dict__] in insertion order. *)
#[local] Unset Elimination Schemes.
Inductive value : Type :=
| VNone
| VBool (b : bool)
| VInt (i : Z)
| VStr (s : list Z)
| VBytes (b : bytes)
| VList (l : list value)
| VInstance (cls : string) (dict : list (string * value)).
#[local] Set Elimination Schemes.

Abbreviation dict := (list (string * value)).

Definition is_None (v : value) : bool :=
  match v with VNone => true | _ => false end.

(** [value.__class__.__name__]; the record type of class [cls] is created
    under the name [cls + 'Instance'] (line 236). *)
Definition class_name (v : value) : string :=
  match v with
  | VNone => "NoneType"
  | VBool _ => "bool"
  | VInt _ => "int"
  | VStr _ => "str"
  | VBytes _ => "bytes"
  | VList _ => "list"
  | VInstance cls _ => cls +:+ "Instance"
  end.

(** Truth value of an object, as [if b] tests it. *)
Definition truthy (v : value) : bool :=
  match v with
  | VNone => false
  | VBool b => b
  | VInt i => negb (i =? 0)
  | VStr s => negb (bool_decide (s = []))
  | VBytes b => match b with [] => false | _ => true end
  | VList l => match l with [] => false | _ => true end
  | VInstance _ _ => true
  end.

(** [for x in v]: lists, and also [str] (one-character strings) and
    [bytes] (integers); anything else is not iterable. *)
Definition py_iter (v : value) : result (list value) :=
  match v with
  | VList l => Ok l
  | VStr s => Ok (map (fun c => VStr [c]) s)
  | VBytes b => Ok (map (fun x => VInt (byte.unsigned x)) b)
  | _ => Raise TypeError
  end.

(** [len(v)] *)
Definition py_len (v : value) : result Z :=
  match v with
  | VList l => Ok (len l)
  | VStr s => Ok (len s)
  | VBytes b => Ok (len b)
  | _ => Raise TypeError
  end.

(** The integer behind an [int] or a [bool] ([bool] is a subclass of
    [int]). *)
Definition as_int (v : value) : option Z :=
  match v with
  | VInt i => Some i
  | VBool b => Some (Z.b2z b)
  | _ => None
  end.

(** The number of constructors of a value. *)
Fixpoint value_size (v : value) : nat :=
  match v with
  | VList l => S (list_sum (map value_size l))
  | VInstance _ d => S (list_sum (map (fun kv => value_size kv.2) d))
  | _ => 1
  end.

(** Lookup and update of a [__dict__]. *)
Fixpoint dict_get (d : dict) (key : string) : option value :=
  match d with
  | [] => None
  | (k, v) :: d' => if String.eqb k key then Some v else dict_get d' key
  end.

Fixpoint dict_set (key : string) (v : value) (d : dict) : dict :=
  match d with
  | [] => [(key, v)]
  | (k, x) :: d' =>
      if String.eqb k key then (k, v) :: d' else (k, x) :: dict_set key v d'
  end.


Definition hasattr (d : dict) (key : string) : bool :=
  match dict_get d key with Some _ => true | None => false end.

(** ** Fields *)

(** The [default] of a field: a plain object, or a callable that is invoked
    to produce one (lines 219-222). *)
Inductive Default : Type :=
| DefaultValue (v : value)
| DefaultCallable (returns : value).

(** The attributes every [Field] object gets in [__init__]: the sequence
    number [_order] (lines 180-181) and the options [optional] and
    [default] (lines 254-259).  [optional] is only ever tested for truth. *)
Record options : Type := Options {
  _order : Z;
  optional : bool;
  default : Default
}.

(** A [Field] object: an instance of one of the built-in subclasses, with
    the options that [default_options] declares for it ([max_length],
    [signed], and the [inner_field] of a [List]), or an instance of a
    subclass named [cls] that declares its own [fields]. *)
Inductive Field : Type :=
| FString (o : options) (max_length : option Z)
| FInteger (o : options) (signed : bool)
| FList (o : options) (inner_field : Field)
| FBoolean (o : options)
| FBytes (o : options)
| FRecord (o : options) (cls : string).

Definition field_options (f : Field) : options :=
  match f with
  | FString o _ | FInteger o _ | FList o _ | FBoolean o | FBytes o
  | FRecord o _ => o
  end.

(** [self.type.__name__]: the class attribute [type] of the built-in
    subclasses (lines 340, 358, 374, 439, 449), the generated instance type
    otherwise (line 236). *)
Definition type_name (f : Field) : string :=
  match f with
  | FString _ _ => "str"
  | FInteger _ _ => "int"
  | FList _ _ => "list"
  | FBoolean _ => "bool"
  | FBytes _ => "bytes"
  | FRecord _ cls => cls +:+ "Instance"
  end.

(** What the body of a class's [fields] function leaves in its local
    variables: [Field] objects and possibly other things. *)
Inductive local : Type :=
| LocalField (f : Field)
| LocalOther (v : value).

(** The classes of a program that declare [fields], by name, each with the
    local variables of its [fields] function at return. *)
Abbreviation class_table := (gmap string (gmap string local)).

(** The order of the tuples [(value._order, key, value)] under
    [ordered_fields.sort()]: by sequence number, then by key. *)
Definition tuple_le (a b : Z * string * Field) : Prop :=
  a.1.1 < b.1.1 \/ (a.1.1 = b.1.1 /\ String.leb a.1.2 b.1.2 = true).

#[global] Instance tuple_le_dec : RelDecision tuple_le.
Proof. intros a b. unfold tuple_le. apply _. Defined.

(** The tuple [(value._order, key, value)] that [get_fields] appends for a
    local variable, if it is a [Field] (lines 283-285). *)
Definition tagged (kv : string * local) : option (Z * string * Field) :=
  match kv.2 with
  | LocalField value => Some (_order (field_options value), kv.1, value)
  | LocalOther _ => None
  end.

(** Re-raising a [ValidationError] with a prefix put before its message
    (lines 229-232, 387-389, 395-397); other exceptions pass unchanged. *)
Definition prepend {A : Type} (prefix : string) (r : result A) : result A :=
  match r with
  | Raise (ValidationError msg) => Raise (ValidationError (prefix +:+ msg))
  | _ => r
  end.

(** Running a body over the items of a loop, stopping at the first
    exception. *)
Fixpoint for_each {A : Type} (body : A -> result unit) (l : list A)
  : result unit :=
  match l with
  | [] => Ok tt
  | x :: l' => _ ← body x; for_each body l'
  end.

Fixpoint for_fold {A S : Type} (body : S -> A -> result S) (s : S)
  (l : list A) : result S :=
  match l with
  | [] => Ok s
  | x :: l' => s' ← body s x; for_fold body s' l'
  end.

(** [Field.check] (lines 264-265), [String.check] (lines 345-347) and
    [List.check] (lines 391-397). *)
Fixpoint check (f : Field) (value : value) : result unit :=
  match f with
  | FString _ max_length =>
      match max_length with
      | None => Ok tt
      | Some m =>
          n ← py_len value;
          if m <? n then Raise (ValidationError "too long") else Ok tt
      end
  | FList _ inner_field =>
      instances ← py_iter value;
      for_each (fun instance =>
                  prepend "inner element " (check inner_field instance))
        instances
  | _ => Ok tt
  end.

(** [Field.check_optional] (lines 267-269). *)
Definition check_optional (f : Field) (value : value) : result unit :=
  if negb (optional (field_options f)) && is_None value
  then Raise (ValidationError "cannot be None")
  else Ok tt.

(** [Field.check_type] (lines 271-275) and [List.check_type] (lines
    380-389). *)
Fixpoint check_type (f : Field) (value : value) : result unit :=
  match f with
  | FList _ inner_field =>
      match value with
      | VList instances =>
          for_each (fun instance =>
                      prepend "inner element " (check_type inner_field instance))
            instances
      | _ =>
          Raise (ValidationError
                   ("is of type" +:+ class_name value +:+ ", expected list"))
      end
  | _ =>
      if bool_decide (class_name value <> type_name f)
      then Raise (ValidationError
                    ("is of type " +:+ class_name value +:+ ", expected "
                     +:+ type_name f))
      else Ok tt
  end.

(** The object that stands in for [None] when a field is assigned (lines
    218-222): [field.default], or what it returns if it is callable. *)
Definition default_object (f : Field) : value :=
  match default (field_options f) with
  | DefaultCallable returns => returns
  | DefaultValue v => v
  end.

(** The body of the [try] of [__setattr__] (lines 224-228): what is run on
    the object about to be stored. *)
Definition run_checks (field : Field) (value : value) : result unit :=
  if is_None value then check_optional field value
  else _ ← check field value; check_type field value.

(** ** The built-in type plugins *)

(** [String.serialize] (lines 349-351): only a [str] has [encode]. *)
Definition String_serialize (s : value) : result bytes :=
  match s with
  | VStr s => e ← utf8_encode s; Ok (x01%byte :: e)
  | _ => Raise AttributeError
  end.

(** [String.deserialize] (lines 353-354). *)
Definition String_deserialize (data : bytes) : result value :=
  s ← utf8_decode (slice_from data 1); Ok (VStr s).

(** [Integer.serialize] (lines 363-367): [bit_length] and [to_bytes] exist
    on [int] and [bool] only. *)
Definition Integer_serialize (signed : bool) (i : value) : result bytes :=
  match as_int i with
  | Some i =>
      let bits := bit_length i in
      let bits :=
        if signed && (0 <? i) && (bits mod 8 =? 0) then bits + 1 else bits in
      to_bytes i (Z.max (Z.shiftr (bits + 7) 3) 1) signed
  | None => Raise AttributeError
  end.

(** [Integer.deserialize] (lines 369-370). *)
Definition Integer_deserialize (signed : bool) (data : bytes) : value :=
  VInt (from_bytes data signed).

(** [Boolean.serialize] (lines 441-442) and [Boolean.deserialize] (lines
    444-445). *)
Definition Boolean_serialize (b : value) : bytes :=
  if truthy b then [x01%byte] else [x00%byte].

Definition Boolean_deserialize (data : bytes) : value :=
  VBool (bool_decide (data = [x01%byte])).

(** [Bytes.serialize] (lines 451-452): [b'\x01' + b] needs a [bytes]. *)
Definition Bytes_serialize (b : value) : result bytes :=
  match b with
  | VBytes b => Ok (x01%byte :: b)
  | _ => Raise TypeError
  end.

(** [Bytes.deserialize] (lines 454-455). *)
Definition Bytes_deserialize (data : bytes) : value :=
  VBytes (slice_from data 1).

(** ** Chunks *)

(** One turn of the loops of [Field.serialize] (lines 301-307) and
    [List.serialize] (lines 411-416): the bytes appended for one attribute,
    [serialize_attr] being the [serialize] of the field in charge. *)
Definition chunk_of (serialize_attr : value -> result bytes) (attr : value)
  : result bytes :=
  if is_None attr then Ok [x00%byte]
  else
    data ← serialize_attr attr;
    prefix ← encode_length (len data);
    Ok (prefix ++ data).

(** The loop of [List.serialize] over the items. *)
Fixpoint List_chunks (serialize_inner : value -> result bytes)
  (l : list value) : result bytes :=
  match l with
  | [] => Ok []
  | attr :: l' =>
      c ← chunk_of serialize_inner attr;
      rest ← List_chunks serialize_inner l';
      Ok (c ++ rest)
  end.

(** [getattr] on a [__dict__], handing the attribute found to [k]. *)
Fixpoint dict_apply {A : Type} (k : value -> A) (d : dict) (key : string)
  : option A :=
  match d with
  | [] => None
  | (k', v) :: d' =>
      if String.eqb k' key then Some (k v) else dict_apply k d' key
  end.

(** The loop of [Field.serialize] over the fields (lines 300-307), on an
    instance whose [__dict__] is [d]; [serialize_attr field] is
    [field.serialize]. *)
Fixpoint Field_chunks (serialize_attr : Field -> value -> result bytes)
  (d : dict) (fields : list (string * Field)) : result bytes :=
  match fields with
  | [] => Ok []
  | (key, field) :: fields' =>
      match dict_apply (chunk_of (serialize_attr field)) d key with
      | None => Raise AttributeError
      | Some chunk =>
          c ← chunk;
          rest ← Field_chunks serialize_attr d fields';
          Ok (c ++ rest)
      end
  end.

(** The first loop of [Field.deserialize] (lines 320-325): the raw chunks
    of [data] from index [i] on.  Every turn moves [i] forward by at least
    one, so [len data] turns are enough; [fuel] bounds them. *)
Fixpoint chunks_loop (fuel : nat) (data : bytes) (i : Z) {struct fuel}
  : result (list bytes) :=
  if i <? len data then
    match fuel with
    | O => OutOfFuel
    | S fuel' =>
        let '(length, length_length) := decode_length data i in
        rest ← chunks_loop fuel' data (i + length_length + length);
        Ok (slice data (i + length_length) (i + length_length + length) :: rest)
    end
  else Ok [].

(** The raw chunks of a buffer: the loop from index [1] (line 320), run
    for as many turns as the buffer has bytes. *)
Definition chunks (data : bytes) : result (list bytes) :=
  chunks_loop (length data) data 1.

(** The loop of [List.deserialize] (lines 429-435), [deserialize_inner]
    being the [deserialize] of the inner field. *)
Fixpoint List_loop (deserialize_inner : bytes -> result value) (fuel : nat)
  (data : bytes) (i : Z) {struct fuel} : result (list value) :=
  if i <? len data then
    match fuel with
    | O => OutOfFuel
    | S fuel' =>
        let '(length, length_length) := decode_length data i in
        x ← deserialize_inner
              (slice data (i + length_length) (i + length_length + length));
        rest ← List_loop deserialize_inner fuel' data (i + length_length + length);
        Ok (x :: rest)
    end
  else Ok [].

(** The second loop of [Field.deserialize] (lines 326-331) over
    [zip(self.get_fields(), array)]; [item is b''] holds of the empty
    chunk, the empty [bytes] object being unique. *)
Fixpoint build_kwargs (deserialize_field : Field -> bytes -> result value)
  (pairs : list ((string * Field) * bytes)) : result (list (string * value)) :=
  match pairs with
  | [] => Ok []
  | ((key, field), item) :: rest =>
      v ← (if bool_decide (item = []) then Ok VNone
           else deserialize_field field item);
      kwargs ← build_kwargs deserialize_field rest;
      Ok ((key, v) :: kwargs)
  end.

(** [dict(pairs)]: a later pair overrides an earlier one with its key. *)
Definition dict_of_pairs (pairs : list (string * Field)) : gmap string Field :=
  foldl (fun m kv => <[kv.1 := kv.2]> m) ∅ pairs.

(** ** Records: the methods of [Field] and of the instance type *)

Section Classes.

(** The classes of the program at hand. *)
Context (classes : class_table).

(** [Field.get_fields] (lines 277-287): the [Field] objects among the
    locals of [fields], sorted by sequence number.  A class that has no
    [fields] attribute is absent from [classes]. *)
Definition get_fields (cls : string) : result (list (string * Field)) :=
  match classes !! cls with
  | None => Raise (NotImplementedError (cls +:+ " has no fields"))
  | Some fields =>
      let ordered_fields := omap tagged (map_to_list fields) in
      Ok (map (fun t => (t.1.2, t.2)) (merge_sort tuple_le ordered_fields))
  end.

(** [field.serialize(v)] for a [v] that is neither a list nor a record
    instance, so holds no other value: the plugins, [List.serialize]
    iterating over the characters of a [str] or the integers of a [bytes],
    and [Field.serialize], whose [getattr] finds no field in such a [v]. *)
Fixpoint serialize_flat (f : Field) (v : value) {struct f} : result bytes :=
  match f with
  | FString _ _ => String_serialize v
  | FInteger _ signed => Integer_serialize signed v
  | FBoolean _ => Ok (Boolean_serialize v)
  | FBytes _ => Bytes_serialize v
  | FList _ inner_field =>
      l ← py_iter v;
      chunks ← List_chunks (serialize_flat inner_field) l;
      Ok (x01%byte :: chunks)
  | FRecord _ cls =>
      fields ← get_fields cls;
      match fields with
      | [] => Ok [x01%byte]
      | _ :: _ => Raise AttributeError
      end
  end.

(** [field.serialize(v)] with its dynamic dispatch: [Field.serialize]
    (lines 289-308) for a class with [fields], [List.serialize] (lines
    399-417), and the plugins.  The recursion follows the value: into the
    items of a list and the attributes of an instance. *)
Fixpoint serialize (v : value) (f : Field) {struct v} : result bytes :=
  match f with
  | FString _ _ => String_serialize v
  | FInteger _ signed => Integer_serialize signed v
  | FBoolean _ => Ok (Boolean_serialize v)
  | FBytes _ => Bytes_serialize v
  | FList _ inner_field =>
      match v with
      | VList l =>
          chunks ← List_chunks (fun attr => serialize attr inner_field) l;
          Ok (x01%byte :: chunks)
      | _ => serialize_flat f v
      end
  | FRecord _ cls =>
      match v with
      | VInstance _ d =>
          fields ← get_fields cls;
          chunks ← Field_chunks (fun field attr => serialize attr field) d fields;
          Ok (x01%byte :: chunks)
      | _ => serialize_flat f v
      end
  end.

(** [FieldInstance.__setattr__] (lines 213-233) on the [__dict__] [d] of an
    instance of the type of class [cls]. *)
Definition FieldInstance_setattr (cls : string) (d : dict) (key : string)
  (value : value) : result dict :=
  fields ← get_fields cls;
  match dict_of_pairs fields !! key with
  | Some field =>
      let value := if is_None value then default_object field else value in
      _ ← prepend (key +:+ " ") (run_checks field value);
      Ok (dict_set key value d)
  | None => Ok (dict_set key value d)
  end.

(** [FieldInstance.__init__] (lines 187-199), [kwargs] in the order of the
    call.  The classes of the model define no [init] hook. *)
Definition FieldInstance_init (cls : string) (kwargs : list (string * value))
  : result dict :=
  d ← for_fold (fun d kv => FieldInstance_setattr cls d kv.1 kv.2) [] kwargs;
  fields ← get_fields cls;
  for_fold (fun d kf =>
              if hasattr d kf.1 then Ok d
              else FieldInstance_setattr cls d kf.1 VNone)
    d fields.

(** The instance method [make] that [Field.__init__] installs (lines
    242-249), called with keyword arguments only ([_data] is [None]), on
    the [Field] object of class [cls] with options [o].  That object keeps
    the [check] of [Field].  No field is taken to be named [_data] or
    [inner_self], names which Python would bind to the parameters. *)
Definition make (o : options) (cls : string) (kwargs : list (string * value))
  : result value :=
  d ← FieldInstance_init cls kwargs;
  let ret := VInstance cls d in
  _ ← check (FRecord o cls) ret;
  _ ← check_optional (FRecord o cls) ret;
  _ ← check_type (FRecord o cls) ret;
  Ok ret.

(** [field.deserialize(data)]: [Field.deserialize] (lines 310-332),
    [List.deserialize] (lines 419-435) and the plugins.  A record may refer
    to its own class, so the recursion is bounded by [fuel]; each nested
    call works on a strictly shorter buffer. *)
Fixpoint deserialize_fuel (fuel : nat) (f : Field) (data : bytes)
  {struct fuel} : result value :=
  match fuel with
  | O => OutOfFuel
  | S fuel' =>
      match f with
      | FString _ _ => String_deserialize data
      | FInteger _ signed => Ok (Integer_deserialize signed data)
      | FBoolean _ => Ok (Boolean_deserialize data)
      | FBytes _ => Ok (Bytes_deserialize data)
      | FList _ inner_field =>
          array ← List_loop (deserialize_fuel fuel' inner_field) fuel' data 1;
          Ok (VList array)
      | FRecord o cls =>
          array ← chunks_loop fuel' data 1;
          fields ← get_fields cls;
          kwargs ← build_kwargs (deserialize_fuel fuel') (zip fields array);
          make o cls kwargs
      end
  end.

Definition deserialize (f : Field) (data : bytes) : result value :=
  deserialize_fuel (S (length data)) f data.




(** A value that a field accepts, all the way down: it passes the field's
    [check] and [check_type], and so do the items of a list under the inner
    field and the attributes of a record instance under the fields of its
    class.  An attribute may also be [None], if its field is optional and
    has no default to put in its place. *)
#[local] Unset Elimination Schemes.
Inductive valid : Field -> value -> Prop :=
| valid_String o max_length s :
    check (FString o max_length) (VStr s) = Ok tt ->
    valid (FString o max_length) (VStr s)
| valid_Integer o signed i : valid (FInteger o signed) (VInt i)
| valid_Boolean o b : valid (FBoolean o) (VBool b)
| valid_Bytes o b : valid (FBytes o) (VBytes b)
| valid_List o inner_field l :
    Forall (valid inner_field) l ->
    check (FList o inner_field) (VList l) = Ok tt ->
    valid (FList o inner_field) (VList l)
| valid_Record o cls d fields :
    get_fields cls = Ok fields ->
    Forall (fun kf =>
              exists attr, dict_get d kf.1 = Some attr
                /\ ((attr = VNone /\ optional (field_options kf.2) = true
                     /\ default_object kf.2 = VNone)
                    \/ (attr <> VNone /\ valid kf.2 attr)))
      fields ->
    valid (FRecord o cls) (VInstance cls d).

(** [v'] is [v] as a field reads it back: the same value, except that the
    [__dict__] of a record instance holds the fields of the class, in their
    order, and nothing else. *)
Inductive reread : Field -> value -> value -> Prop :=
| reread_String o max_length s :
    reread (FString o max_length) (VStr s) (VStr s)
| reread_Integer o signed i : reread (FInteger o signed) (VInt i) (VInt i)
| reread_Boolean o b : reread (FBoolean o) (VBool b) (VBool b)
| reread_Bytes o b : reread (FBytes o) (VBytes b) (VBytes b)
| reread_List o inner_field l l' :
    Forall2 (reread inner_field) l l' ->
    reread (FList o inner_field) (VList l) (VList l')
| reread_Record o cls d d' fields :
    get_fields cls = Ok fields ->
    Forall2 (fun kf kv =>
               kv.1 = kf.1
               /\ exists attr, dict_get d kf.1 = Some attr
                    /\ ((attr = VNone /\ kv.2 = VNone)
                        \/ (attr <> VNone /\ reread kf.2 attr kv.2)))
      fields d' ->
    reread (FRecord o cls) (VInstance cls d) (VInstance cls d').
#[local] Set Elimination Schemes.

(** What [__setattr__] stores under a field's name is acceptable to the
    field. *)
Definition acceptable (kf : string * Field) (attr : value) : Prop :=
  (attr = VNone /\ optional (field_options kf.2) = true
   /\ default_object kf.2 = VNone)
  \/ (attr <> VNone /\ valid kf.2 attr).

(** Every record instance inside a value is valid for its own class. *)
#[local] Unset Elimination Schemes.
Inductive instances_valid : value -> Prop :=
| instances_valid_None : instances_valid VNone
| instances_valid_Bool b : instances_valid (VBool b)
| instances_valid_Int i : instances_valid (VInt i)
| instances_valid_Str s : instances_valid (VStr s)
| instances_valid_Bytes b : instances_valid (VBytes b)
| instances_valid_List l :
    Forall instances_valid l -> instances_valid (VList l)
| instances_valid_Instance o cls d :
    valid (FRecord o cls) (VInstance cls d) ->
    instances_valid (VInstance cls d).
#[local] Set Elimination Schemes.

(** The condition under which [__setattr__] stores the keyword argument
    [kv] as it is, for the field [kf]. *)
Definition stored_as_is (kf : string * Field) (kv : string * value) : Prop :=
  kv.1 = kf.1
  /\ ((kv.2 = VNone /\ optional (field_options kf.2) = true
       /\ default_object kf.2 = VNone)
      \/ (kv.2 <> VNone /\ run_checks kf.2 kv.2 = Ok tt)).


End Classes.

(** ** Instantiation (lines 169-177, 334-336, 376-378) *)

Module Init.

(** [Field] and its built-in subclasses. *)
Inductive FieldClass : Type :=
| Field_class | String_class | Integer_class | List_class | Boolean_class
| Bytes_class.

(** What a constructor call can change outside the new object: the text
    written to [sys.stderr] and the class attribute [Field._order]. *)
Record world : Type := World {
  stderr : string;
  Field_order : Z
}.

(** The outcome of a call on an object under construction: what the call
    returned or raised, the attributes of the object afterwards, and the
    world afterwards. *)
Abbreviation outcome A := (result A * dict * world)%type.

Definition newline : string := String "010"%char "".

(** The text of lines 170-175. *)
Definition msg : string :=
  "Use of encodium.Field is Deprecated." +:+ newline
  +:+ "This change will break backwards compatibility" +:+ newline
  +:+ "For a quickfix, change:" +:+ newline
  +:+ "    from encodium import ___" +:+ newline
  +:+ "to" +:+ newline
  +:+ "    from encodium.deprecated import ___" +:+ newline.

(** [Field.__init__(self, **kwargs)] (lines 169-177), called with the
    positional arguments [args]: the signature takes none.  The body ends
    at the [raise] of line 177; nothing below it is run. *)
Definition Field_init (self : dict) (w : world) (args : list value)
  (kwargs : list (string * value)) : outcome unit :=
  match args with
  | _ :: _ => (Raise TypeError, self, w)
  | [] =>
      let w := World (stderr w +:+ msg) (Field_order w) in
      (Raise (Exception "Upgrade Encodium"), self, w)
  end.

(** Removing a key from keyword arguments. *)
Definition without (key : string) (kwargs : list (string * value))
  : list (string * value) :=
  filter (fun kv => kv.1 <> key) kwargs.

(** [List.__init__(self, inner_field, *args, **kwargs)] (lines 376-378):
    [inner_field] is the first positional argument, or else the keyword
    argument of that name. *)
Definition List_init (self : dict) (w : world) (args : list value)
  (kwargs : list (string * value)) : outcome unit :=
  match args, dict_get kwargs "inner_field" with
  | inner_field :: args, None =>
      Field_init (dict_set "inner_field" inner_field self) w args kwargs
  | _ :: _, Some _ => (Raise TypeError, self, w)
  | [], Some inner_field =>
      Field_init (dict_set "inner_field" inner_field self) w []
        (without "inner_field" kwargs)
  | [], None => (Raise TypeError, self, w)
  end.

(** A call of the class [cls] with [args] and [kwargs]: a new object, then the [__init__] of the class;
    [List] has its own, the other classes inherit [Field]'s.  An instance
    is returned only if [__init__] returns. *)
Definition instantiate (cls : FieldClass) (w : world) (args : list value)
  (kwargs : list (string * value)) : outcome dict :=
  let '(r, self, w) :=
    match cls with
    | List_class => List_init [] w args kwargs
    | _ => Field_init [] w args kwargs
    end in
  ((_ ← r; Ok self), self, w).

(** The classmethod [make] (lines 334-336): [cls()], then [make] on the
    result with the arguments passed on,
    where [instance_make] stands for whatever [make] the instance would
    have. *)
Definition make
  (instance_make : dict -> world -> list value -> list (string * value)
                   -> result value * world)
  (cls : FieldClass) (w : world) (args : list value)
  (kwargs : list (string * value)) : result value * world :=
  match instantiate cls w [] [] with
  | (Ok self, _, w) => instance_make self w args kwargs
  | (Raise e, _, w) => (Raise e, w)
  | (OutOfFuel, _, w) => (OutOfFuel, w)
  end.


End Init.

(** ** Sample schemas *)

(** Options of a field created with no keyword argument, and of one created
    with [optional=True]; [n] is the sequence number. *)
Definition required (n : Z) : options := Options n false (DefaultValue VNone).
Definition optionally (n : Z) : options := Options n true (DefaultValue VNone).

(** The code points of an ASCII string literal. *)
Definition str (s : string) : list Z :=
  map (fun a => Z.of_N (N_of_ascii a)) (list_ascii_of_string s).

(** A few classes in the style of the module's documentation: [Named] with
    one required field, [Maybe] with one optional field, [Blob] with an
    optional [Bytes] and an optional [String], [Gauge] with an unsigned
    [Integer], [Person], and the recursive [Tree]. *)
Definition Named : gmap string local :=
  {[ "name" := LocalField (FString (required 0) None) ]}.

Definition Maybe : gmap string local :=
  {[ "name" := LocalField (FString (optionally 0) None) ]}.

Definition Blob : gmap string local :=
  {[ "data" := LocalField (FBytes (optionally 0));
     "text" := LocalField (FString (optionally 1) None) ]}.

Definition Gauge : gmap string local :=
  {[ "level" := LocalField (FInteger (required 0) false) ]}.

Definition Person : gmap string local :=
  {[ "age" := LocalField (FInteger (required 0) true);
     "name" := LocalField (FString (required 1) (Some 50));
     "diabetic" :=
       LocalField (FBoolean (Options 2 false (DefaultValue (VBool true))));
     "tags" := LocalField (FList (optionally 4) (FString (required 3) (Some 3)));
     "scratch" := LocalOther (VInt 0) ]}.

Definition Tree : gmap string local :=
  {[ "left" := LocalField (FRecord (optionally 0) "Tree");
     "right" := LocalField (FRecord (optionally 1) "Tree");
     "value" := LocalField (FString (required 2) None) ]}.

Definition sample_classes : class_table :=
  {[ "Named" := Named; "Maybe" := Maybe; "Blob" := Blob; "Gauge" := Gauge;
     "Person" := Person; "Tree" := Tree ]}.

(** The fields of [Blob] in declaration order, and three buffers for it:
    with one chunk, with two, and with three. *)
Definition Blob_fields : list (string * Field) :=
  [("data", FBytes (optionally 0)); ("text", FString (optionally 1) None)].

Definition Blob_one_chunk : bytes := [x01; x02; x01; x41]%byte.
Definition Blob_two_chunks : bytes := [x01; x02; x01; x41; x02; x01; x42]%byte.
Definition Blob_three_chunks : bytes :=
  [x01; x02; x01; x41; x02; x01; x42; x01; xff]%byte.

(** The empty value of a [Bytes] or [String] field. *)
Definition empty_value (f : Field) : option value :=
  match f with
  | FBytes _ => Some (VBytes [])
  | FString _ _ => Some (VStr [])
  | _ => None
  end.

(** Two [Blob] instances: both fields empty, both fields absent. *)
Definition Blob_empty : value :=
  VInstance "Blob" [("data", VBytes []); ("text", VStr [])].
Definition Blob_absent : value :=
  VInstance "Blob" [("data", VNone); ("text", VNone)].

(** The fields of [Tree] in declaration order, a leaf, a tree with that
    leaf on its left, and a [Gauge] with a negative level. *)
Definition Tree_fields : list (string * Field) :=
  [("left", FRecord (optionally 0) "Tree");
   ("right", FRecord (optionally 1) "Tree");
   ("value", FString (required 2) None)].

Definition Tree_leaf : value :=
  VInstance "Tree" [("value", VStr (str "l")); ("left", VNone); ("right", VNone)].


Definition Gauge_negative : value := VInstance "Gauge" [("level", VInt (-1))].

(** ** Further definitions *)

(** The width in bytes that [Integer.serialize] computes (lines 364-367):
    the bit length, one more for a positive signed integer whose bit length
    is a multiple of eight, rounded up to bytes, and at least one. *)
Definition Integer_width (signed : bool) (i : Z) : Z :=
  let bits := bit_length i in
  let bits :=
    if signed && (0 <? i) && (bits mod 8 =? 0) then bits + 1 else bits in
  Z.max (Z.shiftr (bits + 7) 3) 1.

(** The fields whose [serialize] puts the byte [0x01] before everything
    else (lines 299, 351, 409, 452); [Integer] and [Boolean] do not. *)
Definition has_marker (f : Field) : bool :=
  match f with
  | FInteger _ _ | FBoolean _ => false
  | _ => true
  end.



(** A field that has no record in it: a built-in type, or a [List] of
    such. *)
Fixpoint record_free (f : Field) : bool :=
  match f with
  | FRecord _ _ => false
  | FList _ inner_field => record_free inner_field
  | _ => true
  end.

(** The exceptions that serializing can end in when the object is of the
    right shape: an integer that does not fit, a character that UTF-8
    cannot encode, a payload too long for the length prefix. *)
Definition serialize_error (e : exn) : Prop :=
  e = OverflowError \/ e = UnicodeEncodeError
  \/ e = ValidationError "length too big".

(** [serialize] returned, or raised one of these exceptions. *)
Definition fine (r : result bytes) : Prop :=
  match r with
  | Ok _ => True
  | Raise e => serialize_error e
  | OutOfFuel => False
  end.

(* ===================================================================== *)
(** * Part II: lemmas and theorems                                        *)
(* ===================================================================== *)

(** ** The error monad *)

Section Monad.
Context {A B : Type}.

Local Ltac split_outcome m :=
  destruct m; cbn; split; intros H;
  repeat match goal with
         | H : exists _, _ |- _ => destruct H
         | H : _ /\ _ |- _ => destruct H
         | H : _ \/ _ |- _ => destruct H
         | H : Ok _ = Ok _ |- _ => injection H as ->
         end;
  try discriminate; subst; eauto.

Lemma bind_Ok (m : result A) (k : A -> result B) b :
  m ≫= k = Ok b <-> exists a, m = Ok a /\ k a = Ok b.
Proof. split_outcome m. Qed.

Lemma bind_Raise (m : result A) (k : A -> result B) e :
  m ≫= k = Raise e <-> m = Raise e \/ exists a, m = Ok a /\ k a = Raise e.
Proof.
  destruct m as [a| |]; cbn; split.
  - intros H. right. eauto.
  - intros [[=]|(a' & [= <-] & H)]. exact H.
  - intros [= ->]. now left.
  - intros [[= ->]|(a' & [=] & _)]. reflexivity.
  - discriminate.
  - intros [[=]|(a' & [=] & _)].
Qed.

Lemma fmap_Ok (m : result A) (g : A -> B) b :
  g <$> m = Ok b <-> exists a, m = Ok a /\ b = g a.
Proof.
  destruct m as [a| |]; cbn; split; try discriminate.
  - intros [= <-]. eauto.
  - intros (a' & [= <-] & ->). reflexivity.
  - intros (a' & [=] & _).
  - intros (a' & [=] & _).
Qed.

End Monad.

(** [inv_bind H] splits a hypothesis [x ← m; k x = Ok b]. *)
Ltac inv_bind H :=
  let a := fresh "a" in
  let E := fresh "E" in
  apply bind_Ok in H as (a & E & H).

(** ** Arithmetic of the byte representation *)

Section Arithmetic.

Lemma len_nonneg {A} (l : list A) : 0 <= len l.
Proof. unfold len. lia. Qed.

Lemma len_app {A} (l k : list A) : len (l ++ k) = len l + len k.
Proof. unfold len. rewrite length_app. lia. Qed.

Lemma len_cons {A} (x : A) (l : list A) : len (x :: l) = 1 + len l.
Proof. unfold len. simpl. lia. Qed.

Lemma len_nil {A} : len (@nil A) = 0.
Proof. reflexivity. Qed.

Lemma bit_length_nonneg i : 0 <= bit_length i.
Proof.
  unfold bit_length. destruct (Z.eqb_spec i 0); [lia|].
  pose proof (Z.log2_nonneg (Z.abs i)). lia.
Qed.

Lemma bit_length_bounds i :
  0 < i -> 2 ^ (bit_length i - 1) <= i < 2 ^ bit_length i.
Proof.
  intros Hi. unfold bit_length. destruct (Z.eqb_spec i 0); [lia|].
  rewrite Z.abs_eq by lia.
  replace (Z.log2 i + 1 - 1) with (Z.log2 i) by lia.
  replace (Z.log2 i + 1) with (Z.succ (Z.log2 i)) by lia.
  apply Z.log2_spec. exact Hi.
Qed.


(** The byte count [(bits + 7) >> 3]. *)
Lemma shiftr3_bounds b :
  8 * Z.shiftr (b + 7) 3 - 7 <= b <= 8 * Z.shiftr (b + 7) 3.
Proof.
  rewrite Z.shiftr_div_pow2 by lia. change (2 ^ 3) with 8.
  pose proof (Z.div_mod (b + 7) 8 ltac:(lia)).
  pose proof (Z.mod_pos_bound (b + 7) 8 ltac:(lia)). lia.
Qed.

Lemma pow2_le_mono a b : 0 <= a <= b -> 2 ^ a <= 2 ^ b.
Proof. intros. apply Z.pow_le_mono_r; lia. Qed.

Lemma pow2_pos a : 0 <= a -> 0 < 2 ^ a.
Proof. intros. apply Z.pow_pos_nonneg; lia. Qed.

Lemma byte_count_upper i :
  0 <= i -> i < 2 ^ (8 * Z.shiftr (bit_length i + 7) 3).
Proof.
  intros Hi. pose proof (shiftr3_bounds (bit_length i)) as Hb.
  pose proof (bit_length_nonneg i) as Hn.
  destruct (Z.eq_dec i 0) as [->|Hz].
  - apply pow2_pos. lia.
  - pose proof (bit_length_bounds i ltac:(lia)) as [_ Hu].
    eapply Z.lt_le_trans; [exact Hu|]. apply pow2_le_mono. lia.
Qed.

Lemma byte_count_lower i :
  0 < i -> 2 ^ (8 * (Z.shiftr (bit_length i + 7) 3 - 1)) <= i.
Proof.
  intros Hi. pose proof (shiftr3_bounds (bit_length i)) as Hb.
  pose proof (bit_length_bounds i Hi) as [Hl _].
  assert (0 < bit_length i).
  { unfold bit_length. destruct (Z.eqb_spec i 0); [lia|].
    pose proof (Z.log2_nonneg (Z.abs i)). lia. }
  eapply Z.le_trans; [|exact Hl]. apply pow2_le_mono. lia.
Qed.

Lemma length_big_endian n v : length (big_endian n v) = n.
Proof.
  revert v. induction n as [|n IH]; intros v; simpl; [reflexivity|].
  rewrite length_app, IH. simpl. lia.
Qed.

Lemma len_big_endian n v : len (big_endian n v) = Z.of_nat n.
Proof. unfold len. now rewrite length_big_endian. Qed.

Lemma unsigned_big_endian_app l k :
  unsigned_big_endian (l ++ k)
  = unsigned_big_endian l * 2 ^ (8 * len k) + unsigned_big_endian k.
Proof.
  unfold unsigned_big_endian. rewrite fold_left_app.
  generalize (fold_left (fun acc b => acc * 256 + byte.unsigned b) l 0).
  induction k as [|b k IH] using rev_ind; intros z.
  - unfold len. simpl. lia.
  - rewrite !fold_left_app, len_app. simpl. rewrite IH.
    change (len [b]) with 1.
    replace (8 * (len k + 1)) with (8 * len k + 8) by lia.
    rewrite Z.pow_add_r by (pose proof (len_nonneg k); lia).
    change (2 ^ 8) with 256. lia.
Qed.

Lemma unsigned_big_endian_single b : unsigned_big_endian [b] = byte.unsigned b.
Proof. reflexivity. Qed.

Lemma unsigned_big_endian_range l :
  0 <= unsigned_big_endian l < 2 ^ (8 * len l).
Proof.
  induction l as [|b l IH] using rev_ind.
  - unfold unsigned_big_endian, len. simpl. lia.
  - rewrite unsigned_big_endian_app, len_app, unsigned_big_endian_single.
    change (len [b]) with 1. pose proof (byte.unsigned_range b) as Hb.
    change (2 ^ 8) with 256 in Hb.
    replace (8 * (len l + 1)) with (8 * len l + 8) by lia.
    rewrite Z.pow_add_r by (pose proof (len_nonneg l); lia).
    change (2 ^ (8 * 1)) with 256. change (2 ^ 8) with 256. nia.
Qed.

Lemma unsigned_big_endian_of n v :
  unsigned_big_endian (big_endian n v) = v mod 2 ^ (8 * Z.of_nat n).
Proof.
  revert v. induction n as [|n IH]; intros v.
  - unfold unsigned_big_endian. simpl. now rewrite Z.mod_1_r.
  - cbn [big_endian]. rewrite unsigned_big_endian_app, IH.
    rewrite unsigned_big_endian_single, byte.unsigned_of_Z.
    unfold byte.wrap. change (len [byte.of_Z v]) with 1.
    change (2 ^ (8 * 1)) with 256. change (2 ^ 8) with 256.
    replace (8 * Z.of_nat (S n)) with (8 + 8 * Z.of_nat n) by lia.
    rewrite Z.pow_add_r by lia. change (2 ^ 8) with 256.
    rewrite Z.rem_mul_r by (try apply pow2_pos; lia). lia.
Qed.


Lemma byte_count_nonneg i : 0 <= Z.shiftr (bit_length i + 7) 3.
Proof.
  pose proof (shiftr3_bounds (bit_length i)).
  pose proof (bit_length_nonneg i). lia.
Qed.

(** The byte count is the only [k] with [256^(k-1) <= i < 256^k]. *)
Lemma byte_count_unique i k :
  0 < i -> 1 <= k -> 2 ^ (8 * (k - 1)) <= i < 2 ^ (8 * k) ->
  Z.shiftr (bit_length i + 7) 3 = k.
Proof.
  intros Hi Hk [Hlo Hhi].
  pose proof (byte_count_nonneg i) as Hn.
  pose proof (byte_count_upper i ltac:(lia)) as Hu.
  pose proof (byte_count_lower i Hi) as Hl.
  set (n := Z.shiftr (bit_length i + 7) 3) in *.
  destruct (Z.eq_dec n 0) as [E|E].
  { rewrite E in Hu. simpl in Hu. lia. }
  destruct (Z.lt_trichotomy n k) as [Hlt|[Heq|Hgt]]; [|exact Heq|].
  - pose proof (pow2_le_mono (8 * n) (8 * (k - 1)) ltac:(lia)). lia.
  - pose proof (pow2_le_mono (8 * k) (8 * (n - 1)) ltac:(lia)). lia.
Qed.

Lemma byte_count_byte i :
  1 <= i <= 255 -> Z.shiftr (bit_length i + 7) 3 = 1.
Proof. intros H. apply byte_count_unique; simpl; lia. Qed.

Lemma byte_count_le i k :
  0 <= i -> 0 <= k -> i < 2 ^ (8 * k) -> Z.shiftr (bit_length i + 7) 3 <= k.
Proof.
  intros Hi Hk Hu.
  destruct (Z.eq_dec i 0) as [->|Hz].
  { change (Z.shiftr (bit_length 0 + 7) 3) with 0. lia. }
  pose proof (byte_count_lower i ltac:(lia)) as Hl.
  pose proof (byte_count_nonneg i) as Hn.
  destruct (Z_le_gt_dec (Z.shiftr (bit_length i + 7) 3) k) as [|Hgt]; [assumption|].
  pose proof (pow2_le_mono (8 * k) (8 * (Z.shiftr (bit_length i + 7) 3 - 1))
                ltac:(lia)). lia.
Qed.

Lemma byte_count_gt i k :
  0 <= k -> 2 ^ (8 * k) <= i -> k < Z.shiftr (bit_length i + 7) 3.
Proof.
  intros Hk Hl. pose proof (pow2_pos (8 * k) ltac:(lia)).
  pose proof (byte_count_upper i ltac:(lia)) as Hu.
  pose proof (byte_count_nonneg i) as Hn.
  destruct (Z_lt_le_dec k (Z.shiftr (bit_length i + 7) 3)) as [|Hle]; [assumption|].
  pose proof (pow2_le_mono (8 * Z.shiftr (bit_length i + 7) 3) (8 * k)
                ltac:(lia)). lia.
Qed.

End Arithmetic.

(** ** Slices *)

Section Slices.
Context {A : Type}.
Implicit Types l k : list A.

Lemma slice_nonneg l a b :
  0 <= a <= b -> slice l a b = take (Z.to_nat (b - a)) (drop (Z.to_nat a) l).
Proof.
  intros [Ha Hab]. unfold slice, slice_bound, len.
  destruct (Z.ltb_spec a 0); [lia|]. destruct (Z.ltb_spec b 0); [lia|].
  destruct (Z_lt_le_dec a (Z.of_nat (length l))) as [Hlt|Hge].
  - rewrite (Z.min_l a) by lia.
    destruct (Z_le_gt_dec b (Z.of_nat (length l))).
    + now rewrite (Z.min_l b) by lia.
    + rewrite (Z.min_r b) by lia.
      rewrite !take_ge; [reflexivity| |]; rewrite length_drop; lia.
  - rewrite !Z.min_r by lia.
    rewrite !drop_ge by lia. now rewrite !take_nil.
Qed.

Lemma slice_from_nonneg l a : 0 <= a -> slice_from l a = drop (Z.to_nat a) l.
Proof.
  intros Ha. unfold slice_from, slice_bound, len.
  destruct (Z.ltb_spec a 0); [lia|].
  destruct (Z_lt_le_dec a (Z.of_nat (length l))).
  - now rewrite Z.min_l by lia.
  - rewrite Z.min_r by lia. rewrite !drop_ge by lia. reflexivity.
Qed.

Lemma slice_mid (pre mid post : list A) a b :
  a = len pre -> b = len pre + len mid ->
  slice (pre ++ mid ++ post) a b = mid.
Proof.
  intros -> ->. pose proof (len_nonneg pre). pose proof (len_nonneg mid).
  rewrite slice_nonneg by lia. unfold len.
  rewrite Nat2Z.id, drop_app_length.
  replace (Z.to_nat _) with (length mid) by lia.
  apply take_app_length.
Qed.

Lemma slice_length_le l a b : 0 <= a <= b -> len (slice l a b) <= b - a.
Proof.
  intros H. rewrite slice_nonneg by lia. unfold len. rewrite length_take. lia.
Qed.

Lemma slice_length_le_drop l a b :
  0 <= a <= b -> len (slice l a b) <= Z.max 0 (len l - a).
Proof.
  intros H. rewrite slice_nonneg by lia. unfold len.
  rewrite length_take, length_drop. lia.
Qed.

End Slices.

(** ** The length codec *)

Section LengthCodec.

Lemma to_bytes_unsigned_ok n :
  0 <= n ->
  to_bytes n (Z.shiftr (bit_length n + 7) 3) false
  = Ok (big_endian (Z.to_nat (Z.shiftr (bit_length n + 7) 3)) n).
Proof.
  intros Hn. unfold to_bytes.
  pose proof (byte_count_nonneg n). pose proof (byte_count_upper n Hn).
  destruct (Z.ltb_spec (Z.shiftr (bit_length n + 7) 3) 0); [lia|].
  destruct (Z.ltb_spec n 0); [lia|].
  destruct (Z.ltb_spec n (2 ^ (8 * Z.shiftr (bit_length n + 7) 3))); [reflexivity|lia].
Qed.

(** What the encoder computes, branch by branch. *)
Lemma encode_length_eq n :
  0 <= n ->
  encode_length n =
    let k := Z.shiftr (bit_length n + 7) 3 in
    if 0xfa <=? n then
      if 6 <? k then Raise (ValidationError "length too big")
      else Ok (byte.of_Z (k + 0xf9) :: big_endian (Z.to_nat k) n)
    else Ok (big_endian (Z.to_nat k) n).
Proof.
  intros Hn. unfold encode_length. rewrite to_bytes_unsigned_ok by assumption.
  cbn [mbind result_bind]. pose proof (byte_count_nonneg n) as Hk.
  rewrite len_big_endian, Z2Nat.id by assumption. cbv zeta.
  destruct (0xfa <=? n); [|reflexivity].
  destruct (Z.ltb_spec 6 (Z.shiftr (bit_length n + 7) 3)); [reflexivity|].
  cbn [bytes_of_ints].
  destruct (Z.leb_spec 0 (Z.shiftr (bit_length n + 7) 3 + 0xf9)); [|lia].
  destruct (Z.ltb_spec (Z.shiftr (bit_length n + 7) 3 + 0xf9) 256); [|lia].
  reflexivity.
Qed.

Lemma encode_length_byte n :
  1 <= n <= 0xf9 -> encode_length n = Ok [byte.of_Z n].
Proof.
  intros H. rewrite encode_length_eq by lia. cbv zeta.
  destruct (Z.leb_spec 0xfa n); [lia|].
  rewrite byte_count_byte by lia. reflexivity.
Qed.

Lemma encode_length_long n :
  0xfa <= n < 2 ^ 48 ->
  encode_length n
  = Ok (byte.of_Z (0xf9 + Z.shiftr (bit_length n + 7) 3)
          :: big_endian (Z.to_nat (Z.shiftr (bit_length n + 7) 3)) n)
    /\ 1 <= Z.shiftr (bit_length n + 7) 3 <= 6.
Proof.
  intros H. pose proof (byte_count_le n 6 ltac:(lia) ltac:(lia) ltac:(simpl; lia)).
  pose proof (byte_count_gt n 0 ltac:(lia) ltac:(simpl; lia)).
  rewrite encode_length_eq by lia. cbv zeta.
  destruct (Z.leb_spec 0xfa n); [|lia].
  destruct (Z.ltb_spec 6 (Z.shiftr (bit_length n + 7) 3)); [lia|].
  split; [|lia]. now rewrite Z.add_comm.
Qed.

Lemma encode_length_too_big n :
  2 ^ 48 <= n -> encode_length n = Raise (ValidationError "length too big").
Proof.
  intros H. pose proof (byte_count_gt n 6 ltac:(lia) ltac:(simpl; lia)).
  assert (0 < 2 ^ 48) by (apply pow2_pos; lia).
  rewrite encode_length_eq by lia. cbv zeta.
  destruct (Z.leb_spec 0xfa n); [|simpl in *; lia].
  destruct (Z.ltb_spec 6 (Z.shiftr (bit_length n + 7) 3)); [reflexivity|lia].
Qed.

Lemma pow256 k : 0 <= k -> 256 ^ k = 2 ^ (8 * k).
Proof. intros. change 256 with (2 ^ 8). now rewrite <- Z.pow_mul_r by lia. Qed.

Lemma minimal_byte_count_iff n k :
  0 < n -> minimal_byte_count n k <-> k = Z.shiftr (bit_length n + 7) 3.
Proof.
  intros Hn. split.
  - intros (Hk & Hu & Hl). symmetry.
    assert (k <> 0) by (intros ->; simpl in Hu; lia).
    specialize (Hl (k - 1) ltac:(lia)).
    rewrite pow256 in Hu, Hl by lia.
    apply byte_count_unique; [lia..|]. split; assumption.
  - intros ->. pose proof (byte_count_nonneg n) as Hk.
    pose proof (byte_count_upper n ltac:(lia)) as Hu.
    pose proof (byte_count_lower n Hn) as Hl.
    split; [assumption|]. split; [now rewrite pow256|].
    intros j Hj. rewrite pow256 by lia.
    eapply Z.le_trans; [|exact Hl]. apply pow2_le_mono. lia.
Qed.

Lemma from_bytes_unsigned data : from_bytes data false = unsigned_big_endian data.
Proof. reflexivity. Qed.

Lemma from_bytes_big_endian k n :
  0 <= n < 2 ^ (8 * Z.of_nat k) -> from_bytes (big_endian k n) false = n.
Proof.
  intros H. rewrite from_bytes_unsigned, unsigned_big_endian_of.
  now apply Z.mod_small.
Qed.

(** The decoder, in the words of its description: one byte is read; below
    [0xfa] it is the length, otherwise it announces [k = byte - 0xf9] further
    bytes that hold the length. *)
Lemma decode_length_eq (data : bytes) index b :
  0 <= index -> data !! Z.to_nat index = Some b ->
  decode_length data index =
    if byte.unsigned b <? 0xfa then (byte.unsigned b, 1)
    else
      let k := byte.unsigned b - 0xf9 in
      (unsigned_big_endian (slice data (index + 1) (index + 1 + k)), 1 + k).
Proof.
  intros Hi Hb. unfold decode_length.
  assert (slice data index (index + 1) = [b]) as ->.
  { rewrite slice_nonneg by lia.
    replace (Z.to_nat (index + 1 - index)) with 1%nat by lia.
    rewrite (drop_S _ _ _ Hb). reflexivity. }
  rewrite !from_bytes_unsigned, unsigned_big_endian_single.
  destruct (Z.leb_spec 0xfa (byte.unsigned b)), (Z.ltb_spec (byte.unsigned b) 0xfa);
    try lia; reflexivity.
Qed.

Lemma decode_length_encode n e (pre post : bytes) index :
  1 <= n -> encode_length n = Ok e -> index = len pre ->
  decode_length (pre ++ e ++ post) index = (n, len e).
Proof.
  intros Hn He ->. pose proof (len_nonneg pre) as Hp.
  assert (0 < 2 ^ 48) as H48 by (apply pow2_pos; lia).
  destruct (Z_lt_le_dec n (2 ^ 48)) as [Hlt|Hge];
    [|rewrite encode_length_too_big in He by assumption; discriminate].
  destruct (Z_le_gt_dec n 0xf9) as [Hs|Hl].
  - rewrite encode_length_byte in He by lia. injection He as <-.
    erewrite decode_length_eq; [|lia|].
    2:{ unfold len. rewrite Nat2Z.id. apply list_lookup_middle. reflexivity. }
    rewrite byte.unsigned_of_Z. unfold byte.wrap.
    rewrite Z.mod_small by (simpl; lia).
    destruct (Z.ltb_spec n 0xfa); [reflexivity|lia].
  - destruct (encode_length_long n ltac:(lia)) as [E Hk].
    rewrite E in He. injection He as <-.
    pose proof (byte_count_upper n ltac:(lia)) as Hu.
    set (k := Z.shiftr (bit_length n + 7) 3) in *.
    erewrite decode_length_eq; [|lia|].
    2:{ unfold len. rewrite Nat2Z.id. apply list_lookup_middle. reflexivity. }
    rewrite byte.unsigned_of_Z. unfold byte.wrap.
    rewrite Z.mod_small by (simpl; lia).
    destruct (Z.ltb_spec (0xf9 + k) 0xfa); [lia|]. cbv zeta.
    replace (0xf9 + k - 0xf9) with k by lia.
    rewrite len_cons, len_big_endian, Z2Nat.id by lia. f_equal.
    rewrite <- from_bytes_unsigned.
    change (pre ++ (byte.of_Z (0xf9 + k) :: big_endian (Z.to_nat k) n) ++ post)
      with (pre ++ [byte.of_Z (0xf9 + k)] ++ big_endian (Z.to_nat k) n ++ post).
    rewrite (app_assoc pre). rewrite slice_mid.
    + apply from_bytes_big_endian. rewrite Z2Nat.id by lia. lia.
    + rewrite len_app. reflexivity.
    + rewrite len_app, len_big_endian, Z2Nat.id by lia. reflexivity.
Qed.

End LengthCodec.

(** ** Integers *)

Section Integers.

Lemma to_bytes_ok i n s data :
  to_bytes i n s = Ok data ->
  0 <= n /\ data = big_endian (Z.to_nat n) i
  /\ (if s then - 2 ^ (8 * n) <= 2 * i < 2 ^ (8 * n) else 0 <= i < 2 ^ (8 * n)).
Proof.
  unfold to_bytes. destruct (Z.ltb_spec n 0); [discriminate|].
  destruct s.
  - destruct (Z.leb_spec (- 2 ^ (8 * n)) (2 * i)); [|discriminate].
    destruct (Z.ltb_spec (2 * i) (2 ^ (8 * n))); [|discriminate].
    simpl. intros [= <-]. auto.
  - destruct (Z.ltb_spec i 0); [discriminate|].
    destruct (Z.ltb_spec i (2 ^ (8 * n))); [|discriminate].
    intros [= <-]. auto.
Qed.

Lemma to_bytes_len i n s data : to_bytes i n s = Ok data -> len data = n.
Proof.
  intros H. apply to_bytes_ok in H as (Hn & -> & _).
  rewrite len_big_endian. lia.
Qed.

Lemma from_bytes_to_bytes i n s data :
  to_bytes i n s = Ok data -> from_bytes data s = i.
Proof.
  intros H. apply to_bytes_ok in H as (Hn & -> & Hr).
  unfold from_bytes. rewrite unsigned_big_endian_of, len_big_endian.
  rewrite Z2Nat.id by assumption.
  pose proof (pow2_pos (8 * n) ltac:(lia)) as HM.
  set (M := 2 ^ (8 * n)) in *.
  destruct s; simpl.
  - destruct (Z_lt_le_dec i 0) as [Hneg|Hpos].
    + assert (i mod M = i + M) as ->.
      { rewrite <- (Z_mod_plus_full i 1 M). rewrite Z.mul_1_l. apply Z.mod_small. lia. }
      destruct (Z.leb_spec M (2 * (i + M))); lia.
    + rewrite Z.mod_small by lia.
      destruct (Z.leb_spec M (2 * i)); lia.
  - apply Z.mod_small. lia.
Qed.

Lemma Integer_serialize_len signed v data :
  Integer_serialize signed v = Ok data -> 1 <= len data.
Proof.
  unfold Integer_serialize. destruct (as_int v) as [i|]; [|discriminate].
  intros H. apply to_bytes_len in H. lia.
Qed.

Lemma Integer_roundtrip signed i data :
  Integer_serialize signed (VInt i) = Ok data ->
  Integer_deserialize signed data = VInt i.
Proof.
  unfold Integer_serialize, Integer_deserialize. simpl. intros H.
  now rewrite (from_bytes_to_bytes _ _ _ _ H).
Qed.

(** A non-negative integer always fits the width that the signed branch
    computes: the extra bit keeps the sign bit clear. *)
Lemma Integer_serialize_signed_nonneg i :
  0 <= i ->
  exists data, Integer_serialize true (VInt i) = Ok data
    /\ Integer_deserialize true data = VInt i.
Proof.
  intros Hi.
  assert (exists data, Integer_serialize true (VInt i) = Ok data) as [data E];
    [|exists data; split; [exact E|now apply Integer_roundtrip]].
  unfold Integer_serialize. cbn [as_int]. cbv zeta.
  set (bits := if true && (0 <? i) && (bit_length i mod 8 =? 0)
               then bit_length i + 1 else bit_length i).
  set (n := Z.max (Z.shiftr (bits + 7) 3) 1).
  assert (2 * i < 2 ^ (8 * n)) as Hfit.
  { destruct (Z.eq_dec i 0) as [->|Hz].
    { pose proof (pow2_pos (8 * n) ltac:(lia)). lia. }
    pose proof (bit_length_bounds i ltac:(lia)) as [_ Hu].
    pose proof (bit_length_nonneg i) as Hb.
    pose proof (shiftr3_bounds bits) as Hs.
    assert (bit_length i + 1 <= 8 * n) as Hle.
    { subst bits. simpl andb in *.
      destruct (Z.ltb_spec 0 i); [|lia]. simpl andb in *.
      destruct (Z.eqb_spec (bit_length i mod 8) 0) as [Hm|Hm]; [lia|].
      assert (bit_length i <> 8 * Z.shiftr (bit_length i + 7) 3).
      { intros E. apply Hm. rewrite E, Z.mul_comm. apply Z_mod_mult. }
      lia. }
    eapply Z.lt_le_trans; [|apply (pow2_le_mono (bit_length i + 1)); lia].
    rewrite Z.pow_add_r by lia. simpl (2 ^ 1). lia. }
  unfold to_bytes. destruct (Z.ltb_spec n 0); [lia|].
  pose proof (pow2_pos (8 * n) ltac:(lia)).
  destruct (Z.leb_spec (- 2 ^ (8 * n)) (2 * i)); [|lia].
  destruct (Z.ltb_spec (2 * i) (2 ^ (8 * n))); [|lia].
  eexists. reflexivity.
Qed.

(** C2.  The code at the failing input: with [signed=True],
    [Integer.serialize(-129)] raises [OverflowError], since the width it
    computes from the bit length of [129] is one byte; the two-byte two's
    complement [0xFF 0x7F], which [Integer.deserialize] reads back as
    [-129], is never produced.  The sign padding is there for positive
    values: [128] does encode as [0x00 0x80]. *)
Theorem Integer_serialize_negative_overflow :
  Integer_serialize true (VInt (-129)) = Raise OverflowError
  /\ to_bytes (-129) 2 true = Ok [xff; x7f]%byte
  /\ Integer_deserialize true [xff; x7f]%byte = VInt (-129)
  /\ Integer_serialize true (VInt 128) = Ok [x00; x80]%byte.
Proof. vm_compute. repeat split; reflexivity. Qed.

End Integers.

(** ** UTF-8 *)

Section Utf8.

Lemma unsigned_of_Z_small x : 0 <= x < 256 -> byte.unsigned (byte.of_Z x) = x.
Proof.
  intros H. rewrite byte.unsigned_of_Z. unfold byte.wrap.
  apply Z.mod_small. simpl. lia.
Qed.

Lemma utf8_continuation_of x :
  0 <= x < 64 -> utf8_continuation (byte.of_Z (0x80 + x)) = Some x.
Proof.
  intros H. unfold utf8_continuation. rewrite unsigned_of_Z_small by lia.
  destruct (Z.leb_spec 0x80 (0x80 + x)); [|lia].
  destruct (Z.ltb_spec (0x80 + x) 0xC0); [|lia].
  simpl. f_equal. lia.
Qed.

Ltac div_lia := Z.to_euclidean_division_equations; lia.

Lemma utf8_decode_encode_char c e rest :
  utf8_encode_char c = Ok e ->
  utf8_decode (e ++ rest) = (r ← utf8_decode rest; Ok (c :: r)).
Proof.
  unfold utf8_encode_char.
  destruct (Z.ltb_spec c 0); [discriminate|].
  destruct (Z.ltb_spec c 0x80).
  { intros [= <-]. cbn [app utf8_decode]. cbv zeta.
    rewrite unsigned_of_Z_small by lia.
    destruct (Z.ltb_spec c 0x80); [reflexivity|lia]. }
  destruct (Z.ltb_spec c 0x800).
  { intros [= <-]. cbn [app utf8_decode]. cbv zeta.
    rewrite unsigned_of_Z_small by div_lia.
    rewrite utf8_continuation_of by div_lia.
    destruct (Z.ltb_spec (0xC0 + c / 64) 0x80); [div_lia|].
    destruct (Z.ltb_spec (0xC0 + c / 64) 0xC2); [div_lia|].
    destruct (Z.ltb_spec (0xC0 + c / 64) 0xE0); [|div_lia].
    replace ((0xC0 + c / 64 - 0xC0) * 64 + c mod 64) with c by div_lia.
    reflexivity. }
  destruct (Z.ltb_spec c 0x10000).
  { destruct (Z.leb_spec 0xD800 c), (Z.ltb_spec c 0xE000); simpl;
      try discriminate;
      (intros [= <-]; cbn [app utf8_decode]; cbv zeta;
       rewrite unsigned_of_Z_small by div_lia;
       rewrite !utf8_continuation_of by div_lia;
       destruct (Z.ltb_spec (0xE0 + c / 4096) 0x80); [div_lia|];
       destruct (Z.ltb_spec (0xE0 + c / 4096) 0xC2); [div_lia|];
       destruct (Z.ltb_spec (0xE0 + c / 4096) 0xE0); [div_lia|];
       destruct (Z.ltb_spec (0xE0 + c / 4096) 0xF0); [|div_lia];
       replace ((0xE0 + c / 4096 - 0xE0) * 4096 + (c / 64) mod 64 * 64
                + c mod 64) with c by div_lia;
       destruct (Z.ltb_spec c 0x800); [lia|];
       destruct (Z.leb_spec 0xD800 c), (Z.ltb_spec c 0xE000); simpl;
       try lia; reflexivity). }
  destruct (Z.ltb_spec c 0x110000); [|discriminate].
  intros [= <-]. cbn [app utf8_decode]. cbv zeta.
  rewrite unsigned_of_Z_small by div_lia.
  rewrite !utf8_continuation_of by div_lia.
  destruct (Z.ltb_spec (0xF0 + c / 262144) 0x80); [div_lia|].
  destruct (Z.ltb_spec (0xF0 + c / 262144) 0xC2); [div_lia|].
  destruct (Z.ltb_spec (0xF0 + c / 262144) 0xE0); [div_lia|].
  destruct (Z.ltb_spec (0xF0 + c / 262144) 0xF0); [div_lia|].
  destruct (Z.ltb_spec (0xF0 + c / 262144) 0xF5); [|div_lia].
  replace ((0xF0 + c / 262144 - 0xF0) * 262144 + (c / 4096) mod 64 * 4096
           + (c / 64) mod 64 * 64 + c mod 64) with c by div_lia.
  destruct (Z.ltb_spec c 0x10000); [lia|].
  destruct (Z.leb_spec 0x110000 c); [lia|]. reflexivity.
Qed.

Lemma utf8_decode_encode s e :
  utf8_encode s = Ok e -> utf8_decode e = Ok s.
Proof.
  revert e. induction s as [|c s IH]; intros e; cbn [utf8_encode].
  - now intros [= <-].
  - destruct (utf8_encode_char c) as [ec| |] eqn:Ec; try discriminate.
    destruct (utf8_encode s) as [es| |] eqn:Es; try discriminate.
    cbn. intros [= <-].
    rewrite (utf8_decode_encode_char _ _ _ Ec), (IH es eq_refl). reflexivity.
Qed.

End Utf8.

(** ** Payloads *)

Section Payloads.
Context (classes : class_table).

Lemma String_serialize_len v data :
  String_serialize v = Ok data -> 1 <= len data.
Proof.
  destruct v; try discriminate. cbn. intros H. inv_bind H.
  injection H as <-. rewrite len_cons. pose proof (len_nonneg a). lia.
Qed.

Lemma Bytes_serialize_len v data :
  Bytes_serialize v = Ok data -> 1 <= len data.
Proof.
  destruct v; try discriminate. intros [= <-].
  rewrite len_cons. pose proof (len_nonneg b). lia.
Qed.

Lemma Boolean_serialize_len v : len (Boolean_serialize v) = 1.
Proof. unfold Boolean_serialize. now destruct (truthy v). Qed.

Lemma marker_len (m : result bytes) data :
  (chunks ← m; Ok (x01%byte :: chunks)) = Ok data -> 1 <= len data.
Proof.
  intros H. inv_bind H. injection H as <-.
  rewrite len_cons. pose proof (len_nonneg a). lia.
Qed.

Lemma serialize_flat_len f v data :
  serialize_flat classes f v = Ok data -> 1 <= len data.
Proof.
  destruct f; cbn [serialize_flat].
  - apply String_serialize_len.
  - apply Integer_serialize_len.
  - intros H. inv_bind H. now apply marker_len in H.
  - intros [= <-]. rewrite Boolean_serialize_len. lia.
  - apply Bytes_serialize_len.
  - intros H. inv_bind H. destruct a; [|discriminate].
    injection H as <-. reflexivity.
Qed.

Lemma serialize_len v f data :
  serialize classes v f = Ok data -> 1 <= len data.
Proof.
  destruct f.
  - destruct v; apply String_serialize_len.
  - destruct v; apply Integer_serialize_len.
  - destruct v; try apply serialize_flat_len. cbn [serialize]. apply marker_len.
  - destruct v; intros [= <-]; rewrite Boolean_serialize_len; lia.
  - destruct v; apply Bytes_serialize_len.
  - destruct v; try apply serialize_flat_len. cbn [serialize].
    intros H. inv_bind H. now apply marker_len in H.
Qed.

End Payloads.

(** C9.  Whatever [field.serialize(v)] returns has at least one byte, for
    every plugin ([Boolean], [Integer], [String], [Bytes], [List]; a class with
    [fields] as well) and every [v].  Hence the chunk written for a value
    that is not [None] announces a length of at least one, and only the
    chunk of [None], the byte [0x00], announces length zero. *)
Theorem serialized_payload_nonempty (classes : class_table) (f : Field)
  (v : value) (data : bytes) :
  serialize classes v f = Ok data ->
  1 <= len data
  /\ (forall c, is_None v = false ->
        chunk_of (fun attr => serialize classes attr f) v = Ok c ->
        (decode_length c 0).1 = len data)
  /\ chunk_of (fun attr => serialize classes attr f) VNone = Ok [x00%byte]
  /\ decode_length [x00%byte] 0 = (0, 1).
Proof.
  intros H. pose proof (serialize_len _ _ _ _ H) as Hlen.
  split; [exact Hlen|]. split; [|split; reflexivity].
  intros c Hv Hc. unfold chunk_of in Hc. rewrite Hv, H in Hc. cbn in Hc.
  inv_bind Hc. injection Hc as <-.
  change (a ++ data) with ([] ++ a ++ data).
  rewrite (decode_length_encode (len data) a [] data 0); auto.
Qed.

Lemma serialized_payload_nonempty_witness :
  1 <= len [x00; x80]%byte
  /\ (forall c, is_None (VInt 128) = false ->
        chunk_of (fun attr => serialize ∅ attr (FInteger (required 0) true))
          (VInt 128) = Ok c ->
        (decode_length c 0).1 = len [x00; x80]%byte)
  /\ chunk_of (fun attr => serialize ∅ attr (FInteger (required 0) true)) VNone
     = Ok [x00%byte]
  /\ decode_length [x00%byte] 0 = (0, 1).
Proof.
  apply (serialized_payload_nonempty ∅ (FInteger (required 0) true) (VInt 128)).
  reflexivity.
Defined.

(** ** The fields of a class *)

Section GetFields.
Context (classes : class_table).


#[local] Instance tuple_le_total : Total tuple_le.
Proof.
  intros a b. unfold tuple_le.
  destruct (Z.lt_trichotomy a.1.1 b.1.1) as [?|[E|?]]; [auto| |auto].
  destruct (String.leb_total a.1.2 b.1.2); [left|right]; right; auto.
Qed.

Lemma get_fields_eq cls :
  get_fields classes cls =
    match classes !! cls with
    | None => Raise (NotImplementedError (cls +:+ " has no fields"))
    | Some fields =>
        Ok (map (fun t => (t.1.2, t.2))
              (merge_sort tuple_le (omap tagged (map_to_list fields))))
    end.
Proof. reflexivity. Qed.

Lemma get_fields_not_OutOfFuel cls : get_fields classes cls <> OutOfFuel.
Proof. rewrite get_fields_eq. now destruct (classes !! cls). Qed.


Lemma tagged_keys_sublist (l : list (string * local)) :
  sublist (map (fun t => t.1.2) (omap tagged l)) l.*1.
Proof.
  induction l as [|[k v] l IH]; cbn; [constructor|].
  unfold tagged at 1. cbn. destruct v; cbn.
  - now apply sublist_skip.
  - now apply sublist_cons.
Qed.

(** The keys that [get_fields] returns are pairwise distinct: they are
    keys of one dictionary. *)
Lemma get_fields_NoDup cls fields :
  get_fields classes cls = Ok fields -> NoDup fields.*1.
Proof.
  rewrite get_fields_eq. destruct (classes !! cls) as [m|]; [|discriminate].
  intros [= <-].
  rewrite <- list_fmap_compose, merge_sort_Permutation.
  eapply sublist_NoDup; [apply (NoDup_fst_map_to_list m)|].
  apply tagged_keys_sublist.
Qed.

(** A pair is returned exactly when the class binds the key to that
    [Field] object. *)
Lemma get_fields_elem cls fields key f :
  get_fields classes cls = Ok fields ->
  (key, f) ∈ fields <->
  exists m, classes !! cls = Some m /\ m !! key = Some (LocalField f).
Proof.
  rewrite get_fields_eq. destruct (classes !! cls) as [m|]; [|discriminate].
  intros [= <-]. rewrite list_elem_of_fmap. split.
  - intros ([[n k] g] & [= -> ->] & Hin). cbn in *.
    rewrite merge_sort_Permutation in Hin.
    apply list_elem_of_omap in Hin as ([k' v] & Hin & Ht).
    unfold tagged in Ht. cbn in Ht. destruct v; [|discriminate].
    injection Ht as <- -> ->. apply elem_of_map_to_list in Hin. eauto.
  - intros (m' & [= <-] & Hk).
    exists (_order (field_options f), key, f). split; [reflexivity|].
    rewrite merge_sort_Permutation. apply list_elem_of_omap.
    exists (key, LocalField f). split; [|reflexivity].
    now apply elem_of_map_to_list.
Qed.

(** The pairs come in the order of the sequence numbers that the [Field]
    objects received when they were created. *)
Lemma get_fields_sorted cls fields :
  get_fields classes cls = Ok fields ->
  StronglySorted (fun a b => _order (field_options a.2) <= _order (field_options b.2))
    fields.
Proof.
  rewrite get_fields_eq. destruct (classes !! cls) as [m|]; [|discriminate].
  intros [= <-]. apply Sorted_StronglySorted.
  { intros a b c. lia. }
  set (l := omap tagged (map_to_list m)).
  assert (Forall (fun t => t.1.1 = _order (field_options t.2)) (merge_sort tuple_le l))
    as Hall.
  { rewrite merge_sort_Permutation. subst l. apply Forall_forall.
    intros t Ht. apply list_elem_of_omap in Ht as ([k v] & _ & Ht).
    unfold tagged in Ht. cbn in Ht. destruct v; [|discriminate].
    now injection Ht as <-. }
  pose proof (Sorted_merge_sort tuple_le l) as Hs.
  induction Hs as [|t l' Hs IH Hhd]; cbn; [constructor|].
  apply Forall_cons in Hall as [Ht Hall]. constructor; [now apply IH|].
  destruct Hhd as [|u l'' Hu]; cbn; constructor. cbn.
  apply Forall_cons in Hall as [Hu' _]. rewrite <- Ht, <- Hu'.
  unfold tuple_le in Hu. lia.
Qed.

(** [dict(self.get_fields())[key]] *)
Lemma dict_of_pairs_lookup (pairs : list (string * Field)) key f :
  NoDup pairs.*1 ->
  dict_of_pairs pairs !! key = Some f <-> (key, f) ∈ pairs.
Proof.
  unfold dict_of_pairs.
  assert (forall (m : gmap string Field),
             (forall k, k ∈ pairs.*1 -> m !! k = None) -> NoDup pairs.*1 ->
             foldl (fun m kv => <[kv.1 := kv.2]> m) m pairs !! key = Some f
             <-> m !! key = Some f \/ (key, f) ∈ pairs) as H.
  { induction pairs as [|[k g] pairs IH]; intros m Hm Hnd; cbn.
    - rewrite elem_of_nil. tauto.
    - apply NoDup_cons in Hnd as [Hk Hnd]. cbn in Hk.
      rewrite IH; [|intros k' Hk'; rewrite lookup_insert_ne;
                    [apply Hm; now right|intros ->; contradiction]|assumption].
      rewrite elem_of_cons. destruct (decide (k = key)) as [->|Hne].
      + rewrite lookup_insert_eq, (Hm key) by now left. split.
        * intros [[= ->]|?]; auto.
        * intros [[=]|[[= ->]|Hin]]; auto.
      + rewrite lookup_insert_ne by assumption. split.
        * intros [?|?]; auto.
        * intros [?|[[= -> ->]|?]]; auto. contradiction. }
  intros Hnd. rewrite H; [|intros; apply lookup_empty|assumption].
  rewrite lookup_empty. split; [intros [[=]|?]; assumption|auto].
Qed.

Lemma dict_of_pairs_None (pairs : list (string * Field)) key :
  dict_of_pairs pairs !! key = None <-> key ∉ pairs.*1.
Proof.
  unfold dict_of_pairs.
  assert (forall (m : gmap string Field),
             foldl (fun m kv => <[kv.1 := kv.2]> m) m pairs !! key = None
             <-> m !! key = None /\ key ∉ pairs.*1) as H.
  { induction pairs as [|[k g] pairs IH]; intros m; cbn.
    - rewrite elem_of_nil. tauto.
    - rewrite IH, not_elem_of_cons. destruct (decide (k = key)) as [->|Hne].
      + rewrite lookup_insert_eq. cbn. split; [intros [[=] _]|].
        intros [_ [Hk _]]. now contradiction Hk.
      + rewrite lookup_insert_ne by assumption. cbn. intuition congruence. }
  rewrite H, lookup_empty. tauto.
Qed.

End GetFields.

(** ** Loops and dictionaries *)

Section Loops.
Context {A S : Type}.

Lemma prepend_Ok {B} p (r : result B) x : prepend p r = Ok x <-> r = Ok x.
Proof. destruct r as [?|[]|]; cbn; split; congruence. Qed.

Lemma prepend_OutOfFuel {B} p (r : result B) :
  prepend p r = OutOfFuel <-> r = OutOfFuel.
Proof. destruct r as [?|[]|]; cbn; split; congruence. Qed.


Lemma for_each_Ok (body : A -> result unit) l :
  for_each body l = Ok tt <-> Forall (fun x => body x = Ok tt) l.
Proof.
  induction l as [|x l IH]; cbn.
  - split; [constructor|reflexivity].
  - rewrite Forall_cons, <- IH, bind_Ok. split.
    + intros ([] & ? & ?). auto.
    + intros [? ?]. exists tt. auto.
Qed.

Lemma for_each_Raise (body : A -> result unit) l e :
  for_each body l = Raise e -> exists x, x ∈ l /\ body x = Raise e.
Proof.
  induction l as [|x l IH]; cbn; [discriminate|].
  rewrite bind_Raise. intros [H|(_ & _ & H)].
  - exists x. split; [left|exact H].
  - destruct (IH H) as (y & ? & ?). exists y. split; [now right|assumption].
Qed.

Lemma for_each_not_OutOfFuel (body : A -> result unit) l :
  (forall x, body x <> OutOfFuel) -> for_each body l <> OutOfFuel.
Proof.
  intros Hb. induction l as [|x l IH]; cbn; [discriminate|].
  specialize (Hb x). destruct (body x); cbn; congruence.
Qed.


(** An invariant of the state is kept by a loop that ends normally. *)
Lemma for_fold_Ok (P : S -> Prop) (body : S -> A -> result S) s l s' :
  (forall s x s', x ∈ l -> P s -> body s x = Ok s' -> P s') ->
  P s -> for_fold body s l = Ok s' -> P s'.
Proof.
  revert s. induction l as [|x l IH]; intros s Hb Hs; cbn.
  - now intros [= <-].
  - rewrite bind_Ok. intros (s1 & H1 & H2).
    eapply IH; [|eapply Hb; [left|exact Hs|exact H1]|exact H2].
    intros ? ? ? ?. apply Hb. now right.
Qed.

(** A loop that does not end normally stopped in one of its turns, from
    a state that satisfies the invariant. *)
Lemma for_fold_stop (P : S -> Prop) (body : S -> A -> result S) s l :
  (forall s x s', x ∈ l -> P s -> body s x = Ok s' -> P s') ->
  P s ->
  (exists s', for_fold body s l = Ok s')
  \/ exists s1 x, x ∈ l /\ P s1 /\ for_fold body s l = body s1 x
                  /\ forall s', body s1 x <> Ok s'.
Proof.
  revert s. induction l as [|x l IH]; intros s Hb Hs; cbn; [eauto|].
  destruct (body s x) as [s1| |] eqn:E; cbn.
  - destruct (IH s1) as [?|(s2 & y & ? & ? & ? & ?)]; [| |auto|].
    + intros ? ? ? ?. apply Hb. now right.
    + eapply Hb; [left|exact Hs|exact E].
    + right. exists s2, y. split; [now right|auto].
  - right. exists s, x. rewrite E. split; [left|]. auto.
  - right. exists s, x. rewrite E. split; [left|]. auto.
Qed.

End Loops.

Section Dicts.

Lemma dict_get_set key v d k :
  dict_get (dict_set key v d) k = if decide (key = k) then Some v else dict_get d k.
Proof.
  induction d as [|[k' x] d IH]; cbn.
  - destruct (String.eqb_spec key k), (decide (key = k)); congruence.
  - destruct (String.eqb_spec k' key) as [->|Hne]; cbn.
    + destruct (String.eqb_spec key k), (decide (key = k)); congruence.
    + rewrite IH. destruct (String.eqb_spec k' k), (decide (key = k)); congruence.
Qed.

Lemma hasattr_set key v d k :
  hasattr (dict_set key v d) k = bool_decide (key = k) || hasattr d k.
Proof.
  unfold hasattr. rewrite dict_get_set.
  destruct (decide (key = k)); [now rewrite bool_decide_eq_true_2|].
  now rewrite bool_decide_eq_false_2.
Qed.

Lemma dict_apply_get {B} (k : value -> B) d key :
  dict_apply k d key = k <$> dict_get d key.
Proof.
  induction d as [|[k' x] d IH]; cbn; [reflexivity|].
  destruct (String.eqb k' key); [reflexivity|exact IH].
Qed.

End Dicts.

(** ** Validation *)

Section Validation.
Context (classes : class_table).

Lemma py_iter_not_OutOfFuel v : py_iter v <> OutOfFuel.
Proof. now destruct v. Qed.

Lemma check_not_OutOfFuel f v : check f v <> OutOfFuel.
Proof.
  revert v. induction f as [o m|o sg|o inner IH|o|o|o cls]; intros v; cbn;
    try discriminate.
  - destruct m as [m|]; [|discriminate].
    destruct v; cbn; try discriminate;
      match goal with |- context [_ <? ?n] => now destruct (_ <? n) end.
  - destruct (py_iter v) as [items| |] eqn:E; cbn; try discriminate.
    + apply for_each_not_OutOfFuel. intros x. rewrite prepend_OutOfFuel. apply IH.
    + now apply py_iter_not_OutOfFuel in E.
Qed.

Lemma check_type_not_OutOfFuel f v : check_type f v <> OutOfFuel.
Proof.
  revert v. induction f as [o m|o sg|o inner IH|o|o|o cls]; intros v; cbn;
    try (match goal with |- context [bool_decide ?P] => now destruct (bool_decide P) end).
  destruct v; try discriminate.
  apply for_each_not_OutOfFuel. intros x. rewrite prepend_OutOfFuel. apply IH.
Qed.

Lemma check_optional_not_OutOfFuel f v : check_optional f v <> OutOfFuel.
Proof. unfold check_optional. now destruct (_ && _). Qed.

Lemma run_checks_not_OutOfFuel field v : run_checks field v <> OutOfFuel.
Proof.
  unfold run_checks. destruct (is_None v).
  - apply check_optional_not_OutOfFuel.
  - pose proof (check_not_OutOfFuel field v).
    pose proof (check_type_not_OutOfFuel field v).
    destruct (check field v); cbn; congruence.
Qed.

Lemma setattr_field cls fields d key value field :
  get_fields classes cls = Ok fields ->
  dict_of_pairs fields !! key = Some field ->
  FieldInstance_setattr classes cls d key value =
    let assigned := if is_None value then default_object field else value in
    (_ ← prepend (key +:+ " ") (run_checks field assigned);
     Ok (dict_set key assigned d)).
Proof. intros Hf Hk. unfold FieldInstance_setattr. now rewrite Hf; cbn; rewrite Hk. Qed.

Lemma setattr_other cls fields d key value :
  get_fields classes cls = Ok fields ->
  dict_of_pairs fields !! key = None ->
  FieldInstance_setattr classes cls d key value = Ok (dict_set key value d).
Proof. intros Hf Hk. unfold FieldInstance_setattr. now rewrite Hf; cbn; rewrite Hk. Qed.

Lemma setattr_not_OutOfFuel cls d key value :
  FieldInstance_setattr classes cls d key value <> OutOfFuel.
Proof.
  destruct (get_fields classes cls) as [fields|e|] eqn:Hf.
  - destruct (dict_of_pairs fields !! key) as [field|] eqn:Hk.
    + rewrite (setattr_field _ _ _ _ _ _ Hf Hk). cbv zeta.
      match goal with |- context [run_checks ?f ?v] =>
        pose proof (run_checks_not_OutOfFuel f v) as H;
        destruct (run_checks f v) as [?|[]|] end; cbn; congruence.
    + now rewrite (setattr_other _ _ _ _ _ Hf Hk).
  - unfold FieldInstance_setattr. now rewrite Hf.
  - now apply get_fields_not_OutOfFuel in Hf.
Qed.

Lemma setattr_Ok cls d key value d' :
  FieldInstance_setattr classes cls d key value = Ok d' ->
  exists assigned, d' = dict_set key assigned d.
Proof.
  unfold FieldInstance_setattr. intros H. inv_bind H.
  destruct (dict_of_pairs a !! key).
  - inv_bind H. injection H as <-. eauto.
  - injection H as <-. eauto.
Qed.


(** [make] is the construction of the instance: the three checks it runs
    on the finished instance (lines 246-248) all pass. *)
Lemma make_eq o cls kwargs :
  make classes o cls kwargs =
    (d ← FieldInstance_init classes cls kwargs; Ok (VInstance cls d)).
Proof.
  unfold make. destruct (FieldInstance_init classes cls kwargs); cbn; try reflexivity.
  unfold check_optional. cbn. rewrite andb_false_r. cbn.
  now rewrite bool_decide_eq_false_2 by (intros H; now apply H).
Qed.

End Validation.

(** ** Construction *)

Section Construction.
Context (classes : class_table).

(** Filling in a field that the arguments left out (lines 194-196). *)
Local Abbreviation fill cls :=
  (fun (d : dict) (kf : string * Field) =>
     if hasattr d kf.1 then Ok d
     else FieldInstance_setattr classes cls d kf.1 VNone).

Local Abbreviation set cls :=
  (fun (d : dict) (kv : string * value) =>
     FieldInstance_setattr classes cls d kv.1 kv.2).






End Construction.



(** ** Error paths *)

Section ErrorPaths.
Context (classes : class_table).




End ErrorPaths.






(** ** Parsing chunks *)

Section Chunks.

Lemma from_bytes_unsigned_nonneg data : 0 <= from_bytes data false.
Proof. rewrite from_bytes_unsigned. apply unsigned_big_endian_range. Qed.

Lemma decode_length_nonneg data i :
  0 <= (decode_length data i).1 /\ 1 <= (decode_length data i).2.
Proof.
  unfold decode_length.
  pose proof (from_bytes_unsigned_nonneg (slice data i (i + 1))).
  destruct (Z.leb_spec 0xfa (from_bytes (slice data i (i + 1)) false));
    cbn [fst snd].
  - split; [apply from_bytes_unsigned_nonneg|lia].
  - lia.
Qed.

(** A chunk cut out of [data] at a position past [i >= 1] is at least two
    bytes shorter than [data]. *)
Lemma chunk_shorter (data : bytes) i ll l :
  1 <= i < len data -> 1 <= ll -> 0 <= l ->
  (length (slice data (i + ll) (i + ll + l)) + 2 <= length data)%nat.
Proof.
  intros Hi Hll Hl.
  pose proof (slice_length_le_drop data (i + ll) (i + ll + l) ltac:(lia)) as H.
  unfold len in *. lia.
Qed.

(** With [fuel] for the bytes that remain, the loop is not cut short, and
    more fuel changes nothing. *)
Lemma chunks_loop_enough fuel data i :
  0 <= i -> len data - i <= Z.of_nat fuel ->
  exists array, chunks_loop fuel data i = Ok array
    /\ forall fuel', len data - i <= Z.of_nat fuel' ->
                     chunks_loop fuel' data i = Ok array.
Proof.
  revert i. induction fuel as [|fuel IH]; intros i Hi Hfuel.
  - exists []. cbn. destruct (Z.ltb_spec i (len data)); [lia|].
    split; [reflexivity|]. intros [|fuel'] _; cbn;
      destruct (Z.ltb_spec i (len data)); (lia || reflexivity).
  - cbn [chunks_loop]. destruct (Z.ltb_spec i (len data)) as [Hlt|Hge].
    + pose proof (decode_length_nonneg data i) as [Hl Hll].
      destruct (decode_length data i) as [l ll] eqn:Ed. cbn in Hl, Hll.
      destruct (IH (i + ll + l) ltac:(lia) ltac:(lia)) as (rest & E & Hmore).
      rewrite E. cbn. eexists. split; [reflexivity|].
      intros [|fuel'] Hf; [lia|]. cbn [chunks_loop].
      destruct (Z.ltb_spec i (len data)); [|lia]. rewrite Ed.
      rewrite (Hmore fuel') by lia. reflexivity.
    + exists []. split; [reflexivity|]. intros [|fuel'] _; cbn;
        destruct (Z.ltb_spec i (len data)); (lia || reflexivity).
Qed.

Lemma chunks_Ok data : exists array, chunks data = Ok array.
Proof.
  destruct (chunks_loop_enough (length data) data 1) as (array & E & _);
    [lia|unfold len; lia|]. now exists array.
Qed.

Lemma chunks_loop_chunks fuel data :
  (length data <= S fuel)%nat -> chunks_loop fuel data 1 = chunks data.
Proof.
  intros H. unfold chunks.
  destruct (chunks_loop_enough (length data) data 1) as (array & E & Hmore);
    [lia|unfold len; lia|].
  rewrite E. apply Hmore. unfold len. lia.
Qed.

(** Every chunk is at least two bytes shorter than the buffer. *)
Lemma chunks_loop_shorter fuel data i array :
  1 <= i -> chunks_loop fuel data i = Ok array ->
  Forall (fun c => (length c + 2 <= length data)%nat) array.
Proof.
  revert i array. induction fuel as [|fuel IH]; intros i array Hi; cbn [chunks_loop];
    destruct (Z.ltb_spec i (len data)) as [Hlt|Hge];
    try discriminate; try (intros [= <-]; constructor).
  pose proof (decode_length_nonneg data i) as [Hl Hll].
  destruct (decode_length data i) as [l ll]. cbn in Hl, Hll.
  intros H. inv_bind H. injection H as <-. constructor.
  - apply chunk_shorter; lia.
  - eapply IH; [|exact E]. lia.
Qed.

(** The two loops of [List.deserialize] agree when their element decoders
    agree on the chunks and both have fuel for the bytes that remain. *)
Lemma List_loop_stable (des1 des2 : bytes -> result value) fuel1 fuel2 data i :
  1 <= i ->
  (forall c, (length c + 2 <= length data)%nat -> des1 c = des2 c) ->
  len data - i <= Z.of_nat fuel1 -> len data - i <= Z.of_nat fuel2 ->
  List_loop des1 fuel1 data i = List_loop des2 fuel2 data i.
Proof.
  intros Hi Hdes. revert fuel2 i Hi.
  induction fuel1 as [|fuel1 IH]; intros [|fuel2] i Hi H1 H2; cbn [List_loop];
    destruct (Z.ltb_spec i (len data)) as [Hlt|Hge]; try lia; try reflexivity.
  pose proof (decode_length_nonneg data i) as [Hl Hll].
  destruct (decode_length data i) as [l ll]. cbn in Hl, Hll.
  rewrite (Hdes (slice data (i + ll) (i + ll + l))) by (apply chunk_shorter; lia).
  rewrite (IH fuel2 (i + ll + l)) by lia. reflexivity.
Qed.

Lemma List_loop_not_OutOfFuel (des : bytes -> result value) fuel data i :
  1 <= i ->
  (forall c, (length c + 2 <= length data)%nat -> des c <> OutOfFuel) ->
  len data - i <= Z.of_nat fuel ->
  List_loop des fuel data i <> OutOfFuel.
Proof.
  intros Hi Hdes. revert i Hi.
  induction fuel as [|fuel IH]; intros i Hi H1; cbn [List_loop];
    destruct (Z.ltb_spec i (len data)) as [Hlt|Hge]; try lia; try discriminate.
  pose proof (decode_length_nonneg data i) as [Hl Hll].
  destruct (decode_length data i) as [l ll]. cbn in Hl, Hll.
  pose proof (Hdes (slice data (i + ll) (i + ll + l))
                ltac:(apply chunk_shorter; lia)) as Hc.
  destruct (des _); cbn; try congruence.
  specialize (IH (i + ll + l) ltac:(lia) ltac:(lia)).
  destruct (List_loop des fuel data (i + ll + l)); cbn; congruence.
Qed.

Lemma build_kwargs_stable (des1 des2 : Field -> bytes -> result value)
  (fields : list (string * Field)) (array : list bytes) (P : bytes -> Prop) :
  Forall P array ->
  (forall f c, P c -> des1 f c = des2 f c) ->
  build_kwargs des1 (zip fields array) = build_kwargs des2 (zip fields array).
Proof.
  intros Hall Hdes. revert fields.
  induction Hall as [|c array Hc Hall IH]; intros [|[key field] fields]; cbn;
    try reflexivity.
  rewrite (Hdes field c Hc), IH. reflexivity.
Qed.

Lemma build_kwargs_not_OutOfFuel (des : Field -> bytes -> result value)
  (fields : list (string * Field)) (array : list bytes) (P : bytes -> Prop) :
  Forall P array ->
  (forall f c, P c -> des f c <> OutOfFuel) ->
  build_kwargs des (zip fields array) <> OutOfFuel.
Proof.
  intros Hall Hdes. revert fields.
  induction Hall as [|c array Hc Hall IH]; intros [|[key field] fields]; cbn;
    try discriminate.
  specialize (Hdes field c Hc). specialize (IH fields).
  destruct (bool_decide (c = [])); cbn.
  - destruct (build_kwargs des (zip fields array)); cbn; congruence.
  - destruct (des field c); cbn; try congruence.
    destruct (build_kwargs des (zip fields array)); cbn; congruence.
Qed.

End Chunks.

(** ** The recursion bound of [deserialize] *)

Section Fuel.
Context (classes : class_table).

Lemma utf8_decode_not_OutOfFuel data : utf8_decode data <> OutOfFuel.
Proof.
  assert (forall n data, (length data <= n)%nat -> utf8_decode data <> OutOfFuel) as H.
  { clear data. induction n as [|n IH]; intros data Hn.
    { destruct data; [discriminate|cbn in Hn; lia]. }
    destruct data as [|b0 r0]; [discriminate|]. cbn [utf8_decode]. cbv zeta.
    cbn in Hn.
    assert (forall r (c : Z), (length r <= n)%nat ->
              (rest ← utf8_decode r; Ok (c :: rest)) <> OutOfFuel) as Hk.
    { intros r c Hr. specialize (IH r Hr).
      destruct (utf8_decode r); cbn; congruence. }
    repeat match goal with
           | |- (if ?c then _ else _) <> _ => destruct c
           | |- context [match ?l with [] => _ | _ :: _ => _ end] =>
               destruct l; cbn in Hn
           | |- context [match utf8_continuation ?b with _ => _ end] =>
               destruct (utf8_continuation b)
           | |- Raise _ <> _ => discriminate
           | |- _ => apply Hk; lia
           end. }
  apply (H (length data)). lia.
Qed.

Lemma init_not_OutOfFuel cls kwargs :
  FieldInstance_init classes cls kwargs <> OutOfFuel.
Proof.
  unfold FieldInstance_init.
  destruct (for_fold_stop (fun _ => True)
              (fun d kv => FieldInstance_setattr classes cls d kv.1 kv.2) [] kwargs)
    as [[d0 E]|(d1 & kv & _ & _ & E & Hno)]; [auto|auto| |]; rewrite E.
  2:{ pose proof (setattr_not_OutOfFuel classes cls d1 kv.1 kv.2). cbn in Hno.
      destruct (FieldInstance_setattr classes cls d1 kv.1 kv.2) as [d2| |];
        cbn; [now contradiction (Hno d2)|congruence..]. }
  cbn. pose proof (get_fields_not_OutOfFuel classes cls).
  destruct (get_fields classes cls) as [fields| |]; cbn; try congruence.
  destruct (for_fold_stop (fun _ => True)
              (fun d kf => if hasattr d kf.1 then Ok d
                           else FieldInstance_setattr classes cls d kf.1 VNone)
              d0 fields)
    as [[d2 E2]|(d1 & kf & _ & _ & E2 & _)]; [auto|auto| |]; rewrite E2;
    [discriminate|].
  destruct (hasattr d1 kf.1); [discriminate|]. apply setattr_not_OutOfFuel.
Qed.

Lemma make_not_OutOfFuel o cls kwargs : make classes o cls kwargs <> OutOfFuel.
Proof.
  rewrite make_eq. pose proof (init_not_OutOfFuel cls kwargs).
  destruct (FieldInstance_init classes cls kwargs); cbn; congruence.
Qed.

(** Any bound above the length of the buffer gives the same outcome. *)
Lemma deserialize_fuel_stable n m f data :
  (length data < n)%nat -> (length data < m)%nat ->
  deserialize_fuel classes n f data = deserialize_fuel classes m f data.
Proof.
  revert m f data. induction n as [|n IH]; intros [|m] f data Hn Hm; try lia.
  cbn [deserialize_fuel]. destruct f as [| |o inner| | |o cls]; try reflexivity.
  - rewrite (List_loop_stable (deserialize_fuel classes n inner)
               (deserialize_fuel classes m inner) n m data 1);
      [reflexivity|lia| |unfold len; lia..].
    intros c Hc. apply IH; lia.
  - rewrite !chunks_loop_chunks by lia.
    destruct (chunks data) as [array| |] eqn:E; try reflexivity. cbn.
    destruct (get_fields classes cls) as [fields| |]; try reflexivity. cbn.
    rewrite (build_kwargs_stable (deserialize_fuel classes n)
               (deserialize_fuel classes m) fields array
               (fun c => (length c + 2 <= length data)%nat)); [reflexivity| |].
    + eapply chunks_loop_shorter; [|exact E]. lia.
    + intros f c Hc. apply IH; lia.
Qed.

(** The bound that [deserialize] uses is never reached. *)
Lemma deserialize_fuel_not_OutOfFuel n f data :
  (length data < n)%nat -> deserialize_fuel classes n f data <> OutOfFuel.
Proof.
  revert f data. induction n as [|n IH]; intros f data Hn; [lia|].
  cbn [deserialize_fuel]. destruct f as [| |o inner| | |o cls]; try discriminate.
  - unfold String_deserialize.
    pose proof (utf8_decode_not_OutOfFuel (slice_from data 1)).
    destruct (utf8_decode _); cbn; congruence.
  - pose proof (List_loop_not_OutOfFuel (deserialize_fuel classes n inner) n data 1
                  ltac:(lia)) as H.
    destruct (List_loop _ n data 1); cbn; try discriminate.
    exfalso. apply H; [|unfold len; lia|reflexivity]. intros c Hc. apply IH. lia.
  - rewrite chunks_loop_chunks by lia.
    destruct (chunks_Ok data) as [array E]. rewrite E. cbn.
    pose proof (get_fields_not_OutOfFuel classes cls).
    destruct (get_fields classes cls) as [fields| |]; cbn; try congruence.
    pose proof (build_kwargs_not_OutOfFuel (deserialize_fuel classes n) fields array
                  (fun c => (length c + 2 <= length data)%nat)) as H'.
    destruct (build_kwargs _ (zip fields array)); cbn; try discriminate.
    + apply make_not_OutOfFuel.
    + exfalso. apply H'; [|intros f c Hc; apply IH; lia|reflexivity].
      eapply chunks_loop_shorter; [|exact E]. lia.
Qed.

Lemma deserialize_not_OutOfFuel f data : deserialize classes f data <> OutOfFuel.
Proof. apply deserialize_fuel_not_OutOfFuel. lia. Qed.

Lemma deserialize_fuel_deserialize n f data :
  (length data < n)%nat ->
  deserialize_fuel classes n f data = deserialize classes f data.
Proof. intros H. apply deserialize_fuel_stable; lia. Qed.

(** [Field.deserialize], with the recursion bound out of the way. *)
Lemma deserialize_record o cls data :
  deserialize classes (FRecord o cls) data =
    (array ← chunks data;
     fields ← get_fields classes cls;
     kwargs ← build_kwargs (deserialize classes) (zip fields array);
     make classes o cls kwargs).
Proof.
  unfold deserialize at 1. cbn [deserialize_fuel].
  rewrite chunks_loop_chunks by lia.
  destruct (chunks data) as [array| |] eqn:E; try reflexivity. cbn.
  destruct (get_fields classes cls) as [fields| |]; try reflexivity. cbn.
  rewrite (build_kwargs_stable (deserialize_fuel classes (length data))
             (deserialize classes) fields array
             (fun c => (length c + 2 <= length data)%nat)); [reflexivity| |].
  - eapply chunks_loop_shorter; [|exact E]. lia.
  - intros f c Hc. apply deserialize_fuel_deserialize. lia.
Qed.

End Fuel.

(** ** Pairing chunks with fields *)

Section Pairing.

Lemma build_kwargs_Ok (des : Field -> bytes -> result value)
  (pairs : list ((string * Field) * bytes)) kwargs :
  build_kwargs des pairs = Ok kwargs ->
  kwargs.*1 = pairs.*1.*1
  /\ forall (i : nat) key field item,
       pairs !! i = Some ((key, field), item) ->
       exists v, kwargs !! i = Some (key, v)
         /\ if bool_decide (item = []) then v = VNone
            else des field item = Ok v.
Proof.
  revert kwargs. induction pairs as [|[[k f] c] pairs IH]; intros kwargs; cbn.
  - intros [= <-]. split; [reflexivity|]. intros i ? ? ? H. now destruct i.
  - intros H. inv_bind H. rename a into v. inv_bind H. injection H as <-.
    destruct (IH _ E0) as [Hkeys Hat]. split; [cbn; now rewrite Hkeys|].
    intros [|i] key field item; cbn.
    + intros [= -> -> ->]. exists v. split; [reflexivity|].
      destruct (bool_decide (item = [])); [now injection E as <-|exact E].
    + apply Hat.
Qed.

Lemma zip_keys {A B} (l : list A) (k : list B) :
  (zip l k).*1 = take (length k) l.
Proof.
  revert k. induction l as [|x l IH]; intros [|y k]; cbn; try reflexivity.
  now rewrite IH.
Qed.

End Pairing.

(** C5.  [deserialize] pairs the chunks with the fields by position, the
    fields being in the order of their sequence numbers, and never compares
    the two counts.  With [array] the chunks of the buffer and [fields]
    those of the class, the outcome is that of [make] on the keyword
    arguments built from [zip(fields, array)]: they depend on the first
    [len(fields)] chunks only; the [i]-th argument has the [i]-th field's
    name and the value decoded by that field from the [i]-th chunk ([None]
    for an empty chunk); and a field at a position past the last chunk is
    not among the arguments. *)
Theorem deserialize_pairs_by_position (classes : class_table) (o : options)
  (cls : string) (data : bytes) (fields : list (string * Field)) :
  get_fields classes cls = Ok fields ->
  StronglySorted
    (fun a b => _order (field_options a.2) <= _order (field_options b.2)) fields
  /\ exists array,
       chunks data = Ok array
       /\ deserialize classes (FRecord o cls) data
          = (kwargs ← build_kwargs (deserialize classes) (zip fields array);
             make classes o cls kwargs)
       /\ build_kwargs (deserialize classes) (zip fields array)
          = build_kwargs (deserialize classes)
              (zip fields (take (length fields) array))
       /\ forall kwargs,
            build_kwargs (deserialize classes) (zip fields array) = Ok kwargs ->
            kwargs.*1 = take (length array) fields.*1
            /\ (forall (i : nat) key field item,
                  fields !! i = Some (key, field) -> array !! i = Some item ->
                  exists v, kwargs !! i = Some (key, v)
                    /\ if bool_decide (item = []) then v = VNone
                       else deserialize classes field item = Ok v)
            /\ (forall (i : nat) key field,
                  fields !! i = Some (key, field) -> (length array <= i)%nat ->
                  key ∉ kwargs.*1).
Proof.
  intros Hf. split; [now apply (get_fields_sorted classes cls)|].
  destruct (chunks_Ok data) as [array E]. exists array.
  split; [exact E|]. split; [|split].
  - rewrite deserialize_record, E. cbn. rewrite Hf. reflexivity.
  - now rewrite zip_with_take_r.
  - intros kwargs Hk. apply build_kwargs_Ok in Hk as [Hkeys Hat].
    rewrite zip_keys in Hkeys. rewrite fmap_take in Hkeys.
    split; [exact Hkeys|]. split.
    + intros i key field item Hi Hc. apply Hat.
      now apply lookup_zip_Some.
    + intros i key field Hi Hlen Hin. rewrite Hkeys in Hin.
      apply elem_of_take in Hin as (j & Hj & Hlt).
      assert (fields.*1 !! i = Some key) as Hi'.
      { rewrite list_lookup_fmap, Hi. reflexivity. }
      pose proof (NoDup_lookup _ _ _ _ (get_fields_NoDup _ _ _ Hf) Hi' Hj). lia.
Qed.

Lemma deserialize_pairs_by_position_witness :
  get_fields sample_classes "Blob" = Ok Blob_fields
  /\ (exists array,
        chunks Blob_one_chunk = Ok array
        /\ deserialize sample_classes (FRecord (required 0) "Blob") Blob_one_chunk
           = (kwargs ← build_kwargs (deserialize sample_classes)
                         (zip Blob_fields array);
              make sample_classes (required 0) "Blob" kwargs))
  /\ (exists array,
        chunks Blob_three_chunks = Ok array
        /\ build_kwargs (deserialize sample_classes) (zip Blob_fields array)
           = build_kwargs (deserialize sample_classes)
               (zip Blob_fields (take (length Blob_fields) array))).
Proof.
  split; [reflexivity|]. split.
  - destruct (deserialize_pairs_by_position sample_classes (required 0) "Blob"
                Blob_one_chunk Blob_fields eq_refl) as [_ (array & E & H & _)].
    exists array. split; assumption.
  - destruct (deserialize_pairs_by_position sample_classes (required 0) "Blob"
                Blob_three_chunks Blob_fields eq_refl) as [_ (array & E & _ & H & _)].
    exists array. split; assumption.
Defined.

(** What [deserialize] returns on the three buffers: a missing chunk leaves
    its field at [None], a chunk too many is dropped. *)
Example Blob_one_chunk_deserialize :
  deserialize sample_classes (FRecord (required 0) "Blob") Blob_one_chunk
  = Ok (VInstance "Blob" [("data", VBytes [x41%byte]); ("text", VNone)]).
Proof. vm_compute. reflexivity. Qed.

Example Blob_three_chunks_deserialize :
  deserialize sample_classes (FRecord (required 0) "Blob") Blob_three_chunks
  = deserialize sample_classes (FRecord (required 0) "Blob") Blob_two_chunks
  /\ deserialize sample_classes (FRecord (required 0) "Blob") Blob_two_chunks
     = Ok (VInstance "Blob" [("data", VBytes [x41%byte]); ("text", VStr [66])]).
Proof. vm_compute. split; reflexivity. Qed.

(** ** Serializing records *)

Section SerializeRecords.
Context (classes : class_table).

Lemma serialize_instance c d o cls :
  serialize classes (VInstance c d) (FRecord o cls) =
    (fields ← get_fields classes cls;
     chunks ← Field_chunks (fun field attr => serialize classes attr field) d fields;
     Ok (x01%byte :: chunks)).
Proof. reflexivity. Qed.

Lemma serialize_list l o inner :
  serialize classes (VList l) (FList o inner) =
    (chunks ← List_chunks (fun attr => serialize classes attr inner) l;
     Ok (x01%byte :: chunks)).
Proof. reflexivity. Qed.

Lemma Field_chunks_cons ser d key field fields :
  Field_chunks ser d ((key, field) :: fields) =
    match dict_get d key with
    | None => Raise AttributeError
    | Some attr =>
        c ← chunk_of (ser field) attr;
        rest ← Field_chunks ser d fields;
        Ok (c ++ rest)
    end.
Proof. cbn. rewrite dict_apply_get. now destruct (dict_get d key). Qed.

Lemma Field_chunks_app ser d l1 l2 :
  Field_chunks ser d (l1 ++ l2) =
    (a ← Field_chunks ser d l1; b ← Field_chunks ser d l2; Ok (a ++ b)).
Proof.
  induction l1 as [|[key field] l1 IH].
  - cbn. destruct (Field_chunks ser d l2); reflexivity.
  - rewrite <- app_comm_cons, !Field_chunks_cons.
    destruct (dict_get d key) as [attr|]; [|reflexivity].
    destruct (chunk_of (ser field) attr) as [c| |]; cbn; try reflexivity.
    rewrite IH. destruct (Field_chunks ser d l1) as [a| |]; cbn; try reflexivity.
    destruct (Field_chunks ser d l2) as [b| |]; cbn; try reflexivity.
    now rewrite app_assoc.
Qed.

Lemma Field_chunks_ext ser d1 d2 (fields : list (string * Field)) :
  (forall key, key ∈ fields.*1 -> dict_get d1 key = dict_get d2 key) ->
  Field_chunks ser d1 fields = Field_chunks ser d2 fields.
Proof.
  induction fields as [|[key field] fields IH]; intros H; [reflexivity|].
  rewrite !Field_chunks_cons, (H key) by (cbn; left).
  rewrite IH; [reflexivity|]. intros k Hk. apply H. cbn. now right.
Qed.

End SerializeRecords.

(** C4, as the code has it.  In the encoding of a record, an optional
    [Bytes] or [String] field that holds the empty value is written as the
    chunk [0x01 0x01] (length one, then the presence byte) and one that is
    absent as the chunk [0x00]: two instances that differ in just that
    have different encodings, the first one byte longer.  The decoders map
    the payload [0x01] back to the empty value and the empty chunk to
    [None]. *)
Theorem empty_value_is_not_absence (classes : class_table) (o : options)
  (cls : string) (pre post : list (string * Field)) (key : string)
  (field : Field) (empty : value) (c1 c2 : string) (d1 d2 : dict)
  (w1 w2 : bytes) :
  get_fields classes cls = Ok (pre ++ (key, field) :: post) ->
  empty_value field = Some empty ->
  dict_get d1 key = Some empty ->
  dict_get d2 key = Some VNone ->
  (forall k, k <> key -> dict_get d1 k = dict_get d2 k) ->
  serialize classes (VInstance c1 d1) (FRecord o cls) = Ok w1 ->
  serialize classes (VInstance c2 d2) (FRecord o cls) = Ok w2 ->
  (exists a b, w1 = x01%byte :: a ++ [x01; x01]%byte ++ b
               /\ w2 = x01%byte :: a ++ [x00%byte] ++ b)
  /\ w1 <> w2
  /\ len w1 = len w2 + 1
  /\ deserialize classes field [x01%byte] = Ok empty
  /\ build_kwargs (deserialize classes) [((key, field), [])] = Ok [(key, VNone)].
Proof.
  intros Hf He H1 H2 Hother S1 S2.
  pose proof (get_fields_NoDup _ _ _ Hf) as Hnd.
  rewrite fmap_app, fmap_cons in Hnd. cbn in Hnd.
  apply NoDup_app in Hnd as (_ & Hpre & Hnd). apply NoDup_cons in Hnd as [Hpost _].
  rewrite serialize_instance, Hf in S1, S2. cbn in S1, S2.
  rewrite Field_chunks_app, Field_chunks_cons in S1, S2.
  rewrite H1 in S1. rewrite H2 in S2.
  rewrite (Field_chunks_ext _ d1 d2 pre) in S1.
  2:{ intros k Hk. apply Hother. intros ->. apply (Hpre _ Hk). now left. }
  rewrite (Field_chunks_ext _ d1 d2 post) in S1.
  2:{ intros k Hk. apply Hother. intros ->. contradiction. }
  assert (chunk_of (fun attr => serialize classes attr field) empty
          = Ok [x01; x01]%byte) as Hc.
  { destruct field; try discriminate; injection He as <-; reflexivity. }
  rewrite Hc in S1.
  destruct (Field_chunks _ d2 pre) as [a| |]; try discriminate.
  destruct (Field_chunks _ d2 post) as [b| |]; try discriminate.
  cbn in S1, S2. injection S1 as <-. injection S2 as <-.
  split; [eauto|]. split; [|split].
  - intros E. apply (f_equal len) in E.
    repeat (rewrite len_cons in E || rewrite len_app in E). lia.
  - repeat (rewrite len_cons || rewrite len_app). lia.
  - split; [|reflexivity].
    destruct field; try discriminate; injection He as <-; reflexivity.
Qed.

Lemma empty_value_is_not_absence_witness :
  (exists a b, [x01; x01; x01; x00]%byte = x01%byte :: a ++ [x01; x01]%byte ++ b
               /\ [x01; x00; x00]%byte = x01%byte :: a ++ [x00%byte] ++ b)
  /\ [x01; x01; x01; x00]%byte <> [x01; x00; x00]%byte
  /\ len [x01; x01; x01; x00]%byte = len [x01; x00; x00]%byte + 1
  /\ deserialize sample_classes (FBytes (optionally 0)) [x01%byte] = Ok (VBytes [])
  /\ build_kwargs (deserialize sample_classes)
       [(("data", FBytes (optionally 0)), [])] = Ok [("data", VNone)].
Proof.
  apply (empty_value_is_not_absence sample_classes (required 0) "Blob"
           [] [("text", FString (optionally 1) None)] "data"
           (FBytes (optionally 0)) (VBytes []) "Blob" "Blob"
           [("data", VBytes []); ("text", VNone)]
           [("data", VNone); ("text", VNone)]);
    try reflexivity.
  intros k Hk. cbn [dict_get].
  destruct (String.eqb "data" k) eqn:E; [|reflexivity].
  apply String.eqb_eq in E. congruence.
Defined.

(** C4 as stated fails: the instance of [Blob] with both fields empty and
    the one with both fields absent are both valid, their encodings are
    different byte strings, and each decodes to the instance it came
    from. *)
Lemma empty_value_distinct_on_wire :
  make sample_classes (required 0) "Blob"
    [("data", VBytes []); ("text", VStr [])] = Ok Blob_empty
  /\ make sample_classes (required 0) "Blob" [] = Ok Blob_absent
  /\ serialize sample_classes Blob_empty (FRecord (required 0) "Blob")
     = Ok [x01; x01; x01; x01; x01]%byte
  /\ serialize sample_classes Blob_absent (FRecord (required 0) "Blob")
     = Ok [x01; x00; x00]%byte
  /\ serialize sample_classes Blob_empty (FRecord (required 0) "Blob")
     <> serialize sample_classes Blob_absent (FRecord (required 0) "Blob")
  /\ deserialize sample_classes (FRecord (required 0) "Blob")
       [x01; x01; x01; x01; x01]%byte = Ok Blob_empty
  /\ deserialize sample_classes (FRecord (required 0) "Blob")
       [x01; x00; x00]%byte = Ok Blob_absent.
Proof. vm_compute. repeat split; try reflexivity. discriminate. Qed.

(** ** Instantiation *)

Module InitFacts.
Import Init.



End InitFacts.



Example List_instantiate :
  Init.instantiate Init.List_class (Init.World "" 0) [VNone] []
  = (Raise (Exception "Upgrade Encodium"), [("inner_field", VNone)],
     Init.World Init.msg 0)
  /\ Init.instantiate Init.List_class (Init.World "" 0) [] []
     = (Raise TypeError, [], Init.World "" 0)
  /\ Init.instantiate Init.String_class (Init.World "" 0) [] [("max_length", VInt 3)]
     = (Raise (Exception "Upgrade Encodium"), [], Init.World Init.msg 0).
Proof. repeat split. Qed.

(** ** Reading chunks back *)

Section Framing.

Lemma value_size_item x l : x ∈ l -> (value_size x < value_size (VList l))%nat.
Proof.
  intros H. change (value_size (VList l)) with (S (list_sum (map value_size l))).
  induction H as [x l|x y l H IH]; cbn [map]; unfold list_sum in *;
    cbn [fold_right]; lia.
Qed.

Lemma value_size_attr c d key x :
  dict_get d key = Some x -> (value_size x < value_size (VInstance c d))%nat.
Proof.
  change (value_size (VInstance c d))
    with (S (list_sum (map (fun kv => value_size kv.2) d))).
  induction d as [|[k v] d IH]; cbn [dict_get map snd]; unfold list_sum in *;
    cbn [fold_right]; [discriminate|].
  destruct (String.eqb k key).
  - intros [= ->]. lia.
  - intros H. specialize (IH H). lia.
Qed.

(** A framed payload, wherever it lies in a buffer, is found again. *)
Lemma decode_chunk (pre post payload prefix : bytes) i :
  1 <= len payload -> encode_length (len payload) = Ok prefix ->
  i = len pre ->
  decode_length (pre ++ (prefix ++ payload) ++ post) i = (len payload, len prefix)
  /\ slice (pre ++ (prefix ++ payload) ++ post) (i + len prefix)
       (i + len prefix + len payload) = payload.
Proof.
  intros Hp He ->. split.
  - rewrite <- app_assoc. now apply decode_length_encode.
  - rewrite <- app_assoc, (app_assoc pre). apply slice_mid.
    + now rewrite len_app.
    + now rewrite len_app.
Qed.

(** The absence marker is a chunk of length zero. *)
Lemma decode_absent (pre post : bytes) i :
  i = len pre ->
  decode_length (pre ++ [x00%byte] ++ post) i = (0, 1)
  /\ slice (pre ++ [x00%byte] ++ post) (i + 1) (i + 1 + 0) = [].
Proof.
  intros ->. pose proof (len_nonneg pre). split.
  - rewrite (decode_length_eq _ _ x00%byte); [reflexivity|lia|].
    unfold len. rewrite Nat2Z.id. now apply list_lookup_middle.
  - rewrite slice_nonneg by lia.
    now replace (Z.to_nat (len pre + 1 + 0 - (len pre + 1))) with 0%nat by lia.
Qed.

(** The loop of [List.deserialize] over the chunks of a list whose items
    [des] reads back. *)
Lemma List_loop_chunks (ser : value -> result bytes)
  (des : bytes -> result value) (R : value -> value -> Prop) l :
  forall chunks pre fuel,
    List_chunks ser l = Ok chunks ->
    Forall (fun x => is_None x = false
                     /\ forall data, ser x = Ok data ->
                          1 <= len data /\ exists x', des data = Ok x' /\ R x x') l ->
    len chunks <= Z.of_nat fuel ->
    exists l', List_loop des fuel (pre ++ chunks) (len pre) = Ok l' /\ Forall2 R l l'.
Proof.
  induction l as [|x l IH]; intros chunks pre fuel Hc Hall Hfuel.
  - injection Hc as <-. exists []. split; [|constructor].
    rewrite app_nil_r. destruct fuel; cbn;
      destruct (Z.ltb_spec (len pre) (len pre)); (lia || reflexivity).
  - cbn in Hc. inv_bind Hc. rename a into c. inv_bind Hc. rename a into rest.
    injection Hc as <-. apply Forall_cons in Hall as [[Hn Hx] Hall].
    unfold chunk_of in E. rewrite Hn in E. inv_bind E. rename a into payload.
    inv_bind E. rename a into prefix. injection E as <-.
    destruct (Hx payload E1) as (Hlen & x' & Hdes & HR).
    destruct (decode_chunk pre rest payload prefix (len pre) Hlen E2 eq_refl)
      as [Hd Hs].
    pose proof (len_nonneg prefix). pose proof (len_nonneg rest).
    rewrite !len_app in Hfuel.
    destruct fuel as [|fuel]; [lia|]. cbn [List_loop].
    destruct (Z.ltb_spec (len pre) (len (pre ++ (prefix ++ payload) ++ rest)))
      as [_|Hge]; [|rewrite !len_app in Hge; lia].
    rewrite Hd, Hs, Hdes. cbn [mbind result_bind].
    destruct (IH rest (pre ++ prefix ++ payload) fuel E0 Hall ltac:(lia))
      as (l' & Hloop & HF).
    rewrite <- !app_assoc in Hloop. rewrite <- !app_assoc.
    replace (len pre + len prefix + len payload)
      with (len (pre ++ prefix ++ payload)) by (rewrite !len_app; lia).
    rewrite Hloop. cbn. exists (x' :: l'). split; [reflexivity|now constructor].
Qed.

(** The first loop of [Field.deserialize] over the chunks of a record: the
    payload of every attribute, and the empty chunk for [None]. *)
Lemma chunks_loop_payloads (ser : Field -> value -> result bytes) (d : dict)
  (fields : list (string * Field)) :
  (forall f x data, ser f x = Ok data -> 1 <= len data) ->
  forall chunks pre fuel,
    Field_chunks ser d fields = Ok chunks ->
    len chunks <= Z.of_nat fuel ->
    exists array,
      chunks_loop fuel (pre ++ chunks) (len pre) = Ok array
      /\ Forall2 (fun kf item =>
                    exists attr, dict_get d kf.1 = Some attr
                      /\ ((attr = VNone /\ item = [])
                          \/ (attr <> VNone /\ ser kf.2 attr = Ok item)))
           fields array.
Proof.
  intros Hser. induction fields as [|[key field] fields IH];
    intros chunks pre fuel Hc Hfuel.
  - injection Hc as <-. exists []. split; [|constructor].
    rewrite app_nil_r. destruct fuel; cbn;
      destruct (Z.ltb_spec (len pre) (len pre)); (lia || reflexivity).
  - rewrite Field_chunks_cons in Hc.
    destruct (dict_get d key) as [attr|] eqn:Hattr; [|discriminate].
    inv_bind Hc. rename a into c. inv_bind Hc. rename a into rest.
    injection Hc as <-. pose proof (len_nonneg rest). rewrite len_app in Hfuel.
    unfold chunk_of in E. destruct (is_None attr) eqn:Hn.
    + injection E as <-. destruct attr; try discriminate.
      destruct (decode_absent pre rest (len pre) eq_refl) as [Hd Hs].
      change (len [x00%byte]) with 1 in Hfuel.
      destruct fuel as [|fuel]; [lia|]. cbn [chunks_loop].
      destruct (Z.ltb_spec (len pre) (len (pre ++ [x00%byte] ++ rest)))
        as [_|Hge]; [|rewrite !len_app in Hge; change (len [x00%byte]) with 1 in Hge; lia].
      rewrite Hd, Hs.
      destruct (IH rest (pre ++ [x00%byte]) fuel E0 ltac:(lia))
        as (array & Hloop & HF).
      rewrite <- app_assoc in Hloop.
      replace (len pre + 1 + 0) with (len (pre ++ [x00%byte]))
        by (rewrite len_app; change (len [x00%byte]) with 1; lia).
      rewrite Hloop. cbn. exists ([] :: array). split; [reflexivity|].
      constructor; [|exact HF]. exists VNone. cbn. auto.
    + inv_bind E. rename a into payload. inv_bind E. rename a into prefix.
      injection E as <-. pose proof (Hser _ _ _ E1) as Hlen.
      destruct (decode_chunk pre rest payload prefix (len pre) Hlen E2 eq_refl)
        as [Hd Hs].
      pose proof (len_nonneg prefix). rewrite len_app in Hfuel.
      destruct fuel as [|fuel]; [lia|]. cbn [chunks_loop].
      destruct (Z.ltb_spec (len pre) (len (pre ++ (prefix ++ payload) ++ rest)))
        as [_|Hge]; [|rewrite !len_app in Hge; lia].
      rewrite Hd, Hs.
      destruct (IH rest (pre ++ prefix ++ payload) fuel E0 ltac:(lia))
        as (array & Hloop & HF).
      rewrite <- !app_assoc in Hloop. rewrite <- !app_assoc.
      replace (len pre + len prefix + len payload)
        with (len (pre ++ prefix ++ payload)) by (rewrite !len_app; lia).
      rewrite Hloop. cbn. exists (payload :: array). split; [reflexivity|].
      constructor; [|exact HF]. exists attr. cbn. split; [exact Hattr|].
      right. split; [|exact E1]. intros ->. discriminate.
Qed.

End Framing.

(** ** Valid values and their checks *)

Section Valid.
Context (classes : class_table).

Lemma valid_not_None f x : valid classes f x -> x <> VNone.
Proof. intros H. inversion H; discriminate. Qed.

Lemma reread_not_None f x x' : reread classes f x x' -> x' <> VNone.
Proof. intros H. inversion H; discriminate. Qed.

Lemma valid_check f x : valid classes f x -> check f x = Ok tt.
Proof. intros H. inversion H; subst; auto. Qed.

Lemma valid_check_type f x : valid classes f x -> check_type f x = Ok tt.
Proof.
  revert x. induction f as [o m|o sg|o inner IH|o|o|o cls]; intros x H;
    inversion H; subst; try reflexivity.
  - cbn. apply for_each_Ok. eapply Forall_impl; [eassumption|].
    intros y Hy. cbn. apply prepend_Ok. now apply IH.
  - cbn. now rewrite bool_decide_eq_false_2 by (intros E; now apply E).
Qed.

Lemma for_each_Forall2 {A} (body : A -> result unit) l l' :
  Forall2 (fun x x' => body x' = body x) l l' ->
  for_each body l' = for_each body l.
Proof. induction 1 as [|x x' l l' E _ IH]; cbn; [reflexivity|]. now rewrite E, IH. Qed.

Lemma reread_check f x x' : reread classes f x x' -> check f x' = check f x.
Proof.
  revert x x'. induction f as [o m|o sg|o inner IH|o|o|o cls]; intros x x' H;
    inversion H; subst; try reflexivity.
  cbn. apply for_each_Forall2. eapply Forall2_impl; [eassumption|].
  intros y y' Hy. cbn. now rewrite (IH _ _ Hy).
Qed.

Lemma reread_check_type f x x' :
  reread classes f x x' -> check_type f x' = check_type f x.
Proof.
  revert x x'. induction f as [o m|o sg|o inner IH|o|o|o cls]; intros x x' H;
    inversion H; subst; try reflexivity.
  cbn. apply for_each_Forall2. eapply Forall2_impl; [eassumption|].
  intros y y' Hy. cbn. now rewrite (IH _ _ Hy).
Qed.

(** What is read back from a valid value passes the checks of
    [__setattr__]. *)
Lemma reread_run_checks f x x' :
  valid classes f x -> reread classes f x x' -> run_checks f x' = Ok tt.
Proof.
  intros Hv Hr. unfold run_checks.
  pose proof (reread_not_None _ _ _ Hr) as Hn.
  destruct x'; try contradiction; cbn [is_None];
    rewrite (reread_check _ _ _ Hr), (valid_check _ _ Hv); cbn;
    now rewrite (reread_check_type _ _ _ Hr), (valid_check_type _ _ Hv).
Qed.

Lemma dict_set_fresh key v (d : dict) :
  key ∉ d.*1 -> dict_set key v d = d ++ [(key, v)].
Proof.
  induction d as [|[k x] d IH]; cbn; [reflexivity|].
  rewrite not_elem_of_cons. intros [Hne Hd].
  destruct (String.eqb_spec k key); [congruence|]. now rewrite IH.
Qed.

Lemma hasattr_elem (d : dict) key : key ∈ d.*1 -> hasattr d key = true.
Proof.
  unfold hasattr. induction d as [|[k x] d IH]; cbn.
  - intros H. now apply elem_of_nil in H.
  - rewrite elem_of_cons. intros [->|H].
    + now rewrite String.eqb_refl.
    + destruct (String.eqb k key); [reflexivity|]. now apply IH.
Qed.

Lemma setattr_as_is cls fields d kf kv :
  get_fields classes cls = Ok fields -> kf ∈ fields -> stored_as_is kf kv ->
  FieldInstance_setattr classes cls d kv.1 kv.2 = Ok (dict_set kv.1 kv.2 d).
Proof.
  intros Hf Hin [Hk Hv]. destruct kf as [key field], kv as [k v]. cbn in *. subst k.
  rewrite (setattr_field _ _ _ _ _ _ _ Hf
             (proj2 (dict_of_pairs_lookup _ _ _ (get_fields_NoDup _ _ _ Hf)) Hin)).
  cbv zeta. destruct Hv as [(-> & Ho & Hd)|[Hn Hc]].
  - cbn [is_None]. rewrite Hd. unfold run_checks, check_optional. cbn.
    now rewrite Ho.
  - destruct v; try contradiction; cbn [is_None]; now rewrite Hc.
Qed.

(** [__init__] on keyword arguments that name the fields in order and are
    stored as they are: the [__dict__] is the arguments. *)
Lemma init_as_is cls fields kwargs :
  get_fields classes cls = Ok fields ->
  Forall2 stored_as_is fields kwargs ->
  FieldInstance_init classes cls kwargs = Ok kwargs.
Proof.
  intros Hf Hall. pose proof (get_fields_NoDup _ _ _ Hf) as Hnd.
  assert (kwargs.*1 = fields.*1) as Hkeys.
  { clear Hf Hnd. induction Hall as [|kf kv fs ks [E _] _ IH]; cbn; [reflexivity|].
    now rewrite E, IH. }
  unfold FieldInstance_init.
  assert (forall fs ks acc,
             Forall2 stored_as_is fs ks -> fs ⊆ fields ->
             NoDup (acc.*1 ++ ks.*1) ->
             for_fold (fun d kv => FieldInstance_setattr classes cls d kv.1 kv.2)
               acc ks = Ok (acc ++ ks)) as Hset.
  { intros fs ks acc H. revert acc.
    induction H as [|kf kv fs ks Hs _ IH]; intros acc Hsub Hn; cbn.
    - now rewrite app_nil_r.
    - rewrite (setattr_as_is cls fields acc kf kv Hf (Hsub _ ltac:(left)) Hs). cbn.
      apply NoDup_app in Hn as Hn'. destruct Hn' as (_ & Hdisj & _).
      rewrite dict_set_fresh by (intros Hc; apply (Hdisj _ Hc); cbn; left).
      rewrite IH.
      + rewrite <- app_assoc. now destruct kv.
      + intros x Hx. apply Hsub. now right.
      + rewrite fmap_app. cbn. rewrite <- app_assoc. exact Hn. }
  rewrite (Hset fields kwargs []); [|exact Hall|done|cbn; now rewrite Hkeys].
  cbn. rewrite Hf. cbn.
  assert (forall fs : list (string * Field), fs.*1 ⊆ kwargs.*1 ->
             for_fold (fun d kf => if hasattr d kf.1 then Ok d
                                   else FieldInstance_setattr classes cls d kf.1 VNone)
               kwargs fs = Ok kwargs) as Hfill.
  { induction fs as [|kf fs IH]; intros Hsub; cbn; [reflexivity|].
    rewrite hasattr_elem by (apply Hsub; cbn; left).
    apply IH. intros x Hx. apply Hsub. cbn. now right. }
  apply Hfill. now rewrite Hkeys.
Qed.

End Valid.

(** ** Constructed records are valid *)

Section Constructed.
Context (classes : class_table).

Lemma string_length_app (a b : string) :
  String.length (a +:+ b) = (String.length a + String.length b)%nat.
Proof.
  induction a as [|x a IH]; [reflexivity|].
  change (S (String.length (a +:+ b)) = S (String.length a + String.length b)).
  now rewrite IH.
Qed.

Lemma string_app_inj_r (a b s : string) : a +:+ s = b +:+ s -> a = b.
Proof.
  revert b. induction a as [|x a IH]; intros [|y b] H.
  - reflexivity.
  - apply (f_equal String.length) in H. rewrite !string_length_app in H.
    cbn [String.length] in H. lia.
  - apply (f_equal String.length) in H. rewrite !string_length_app in H.
    cbn [String.length] in H. lia.
  - change (String x (a +:+ s) = String y (b +:+ s)) in H.
    injection H as -> H. f_equal. now apply IH.
Qed.

(** Only a record instance has a class name that ends in ["Instance"]. *)
Lemma class_name_Instance x cls :
  class_name x = cls +:+ "Instance" -> exists d, x = VInstance cls d.
Proof.
  intros H. destruct x; cbn [class_name] in H;
    try (apply (f_equal String.length) in H; rewrite string_length_app in H;
         cbn in H; lia).
  - apply (f_equal String.length) in H as Hl. rewrite string_length_app in Hl.
    cbn in Hl. destruct cls; [discriminate H|cbn in Hl; lia].
  - apply string_app_inj_r in H as ->. eauto.
Qed.

Lemma check_type_not_None f : check_type f VNone <> Ok tt.
Proof.
  destruct f as [| | | | |o cls]; cbn; try discriminate.
  destruct (decide ("NoneType" = cls +:+ "Instance")) as [E|Hne].
  - apply (class_name_Instance VNone) in E as [d [=]].
  - now rewrite bool_decide_eq_true_2.
Qed.

Lemma check_type_class f x :
  (forall o inner, f <> FList o inner) ->
  check_type f x = Ok tt -> class_name x = type_name f.
Proof.
  intros Hf H.
  assert ((if bool_decide (class_name x <> type_name f)
           then Raise (ValidationError
                         ("is of type " +:+ class_name x +:+ ", expected "
                          +:+ type_name f))
           else Ok tt) = Ok tt) as H'.
  { destruct f; try exact H. now contradiction (Hf o f). }
  destruct (decide (class_name x = type_name f)) as [E|Hne]; [exact E|].
  now rewrite bool_decide_eq_true_2 in H'.
Qed.

(** A value that passes the checks of [__setattr__] is valid, if the record
    instances inside it are. *)
Lemma checks_valid f x :
  instances_valid classes x -> x <> VNone -> run_checks f x = Ok tt ->
  valid classes f x.
Proof.
  revert x. induction f as [o m|o sg|o inner IH|o|o|o cls]; intros x Hi Hn Hc;
    unfold run_checks in Hc; (destruct (is_None x) eqn:En; [now destruct x|]);
    inv_bind Hc; destruct a.
  - apply check_type_class in Hc as Hcl; [|discriminate].
    destruct x; try discriminate Hcl; [now constructor|].
    apply (f_equal String.length) in Hcl. cbn [class_name type_name] in Hcl.
    rewrite string_length_app in Hcl. cbn in Hcl. lia.
  - apply check_type_class in Hc as Hcl; [|discriminate].
    destruct x; try discriminate Hcl; [constructor|].
    apply (f_equal String.length) in Hcl. cbn [class_name type_name] in Hcl.
    rewrite string_length_app in Hcl. cbn in Hcl. lia.
  - cbn [check_type] in Hc. destruct x; try discriminate.
    inversion Hi; subst. apply for_each_Ok in Hc.
    pose proof E as E'. cbn [check py_iter] in E'. cbn [mbind result_bind] in E'.
    apply for_each_Ok in E'. constructor; [|exact E].
    apply Forall_forall. intros y Hy.
    pose proof (proj1 (Forall_forall _ _) Hc y Hy) as Hty. cbn in Hty.
    pose proof (proj1 (Forall_forall _ _) E' y Hy) as Hcy. cbn in Hcy.
    apply prepend_Ok in Hty, Hcy.
    apply IH; [now apply (proj1 (Forall_forall _ _) H0)| |].
    + intros ->. now apply check_type_not_None in Hty.
    + unfold run_checks. destruct (is_None y) eqn:Ey.
      * destruct y; try discriminate. now apply check_type_not_None in Hty.
      * now rewrite Hcy.
  - apply check_type_class in Hc as Hcl; [|discriminate].
    destruct x; try discriminate Hcl; [constructor|].
    apply (f_equal String.length) in Hcl. cbn [class_name type_name] in Hcl.
    rewrite string_length_app in Hcl. cbn in Hcl. lia.
  - apply check_type_class in Hc as Hcl; [|discriminate].
    destruct x; try discriminate Hcl; [constructor|].
    apply (f_equal String.length) in Hcl. cbn [class_name type_name] in Hcl.
    rewrite string_length_app in Hcl. cbn in Hcl. lia.
  - apply check_type_class in Hc as Hcl; [|discriminate].
    apply class_name_Instance in Hcl as [d ->].
    inversion Hi as [| | | | | |o' cls' d' Hv]; subst.
    inversion Hv; subst. econstructor; eassumption.
Qed.

Lemma setattr_acceptable cls fields d key value d' :
  get_fields classes cls = Ok fields ->
  Forall (fun kf => instances_valid classes (default_object kf.2)) fields ->
  instances_valid classes value ->
  (forall kf attr, kf ∈ fields -> dict_get d kf.1 = Some attr -> acceptable classes kf attr) ->
  FieldInstance_setattr classes cls d key value = Ok d' ->
  forall kf attr, kf ∈ fields -> dict_get d' kf.1 = Some attr -> acceptable classes kf attr.
Proof.
  intros Hf Hdef Hi Hinv Hset [k field] attr Hin Hget. cbn [fst snd] in *.
  pose proof (get_fields_NoDup _ _ _ Hf) as Hnd.
  destruct (dict_of_pairs fields !! key) as [field'|] eqn:Hk.
  - rewrite (setattr_field _ _ _ _ _ _ _ Hf Hk) in Hset. cbv zeta in Hset.
    inv_bind Hset. injection Hset as <-. apply prepend_Ok in E. destruct a.
    rewrite dict_get_set in Hget. destruct (decide (key = k)) as [->|Hne].
    2:{ now apply (Hinv (k, field)). }
    injection Hget as <-.
    apply (dict_of_pairs_lookup _ _ _ Hnd) in Hk.
    assert (field' = field) as ->.
    { apply list_elem_of_lookup in Hk as [i Hi'], Hin as [j Hj].
      assert (i = j) as ->.
      { eapply (NoDup_lookup _ _ _ k Hnd); rewrite list_lookup_fmap;
          [rewrite Hi'|rewrite Hj]; reflexivity. }
      congruence. }
    set (assigned := if is_None value then default_object field else value) in *.
    assert (instances_valid classes assigned) as Hia.
    { subst assigned. destruct (is_None value); [|exact Hi].
      apply (proj1 (Forall_forall _ _) Hdef (k, field) Hin). }
    unfold acceptable. cbn [fst snd].
    destruct (is_None assigned) eqn:En.
    + left. destruct assigned eqn:Ea; try discriminate. split; [reflexivity|].
      unfold run_checks, check_optional in E. cbn in E.
      destruct (optional (field_options field)); [|discriminate].
      split; [reflexivity|]. subst assigned.
      destruct (is_None value) eqn:Ev; [exact Ea|]. subst value. discriminate.
    + right. split; [intros Ea; now rewrite Ea in En|].
      apply checks_valid; [exact Hia| |exact E]. intros Ea. now rewrite Ea in En.
  - rewrite (setattr_other _ _ _ _ _ _ Hf Hk) in Hset. injection Hset as <-.
    rewrite dict_get_set in Hget. destruct (decide (key = k)) as [->|Hne].
    + apply dict_of_pairs_None in Hk. exfalso. apply Hk.
      apply list_elem_of_fmap. now exists (k, field).
    + now apply (Hinv (k, field)).
Qed.

(** A record that [make] returns is valid, provided the record instances
    handed to it, and those among the defaults, are. *)
Lemma make_valid o cls fields kwargs r :
  get_fields classes cls = Ok fields ->
  Forall (fun kf => instances_valid classes (default_object kf.2)) fields ->
  Forall (fun kv => instances_valid classes kv.2) kwargs ->
  make classes o cls kwargs = Ok r ->
  valid classes (FRecord o cls) r.
Proof.
  intros Hf Hdef Hkw Hm. rewrite make_eq in Hm. inv_bind Hm. rename a into d.
  injection Hm as <-. unfold FieldInstance_init in E. inv_bind E. rename a into d0.
  rewrite Hf in E. cbn [mbind result_bind] in E.
  assert (forall kf attr, kf ∈ fields -> dict_get d0 kf.1 = Some attr ->
                          acceptable classes kf attr) as H0.
  { eapply (for_fold_Ok
              (fun d => forall kf attr, kf ∈ fields -> dict_get d kf.1 = Some attr ->
                                        acceptable classes kf attr)); [| |exact E0].
    - intros d1 kv d2 Hin Hinv Hset.
      eapply setattr_acceptable; [exact Hf|exact Hdef| |exact Hinv|exact Hset].
      apply (proj1 (Forall_forall _ _) Hkw kv Hin).
    - intros kf attr _ [=]. }
  assert (forall kf attr, kf ∈ fields -> dict_get d kf.1 = Some attr ->
                          acceptable classes kf attr) as H1.
  { eapply (for_fold_Ok
              (fun d => forall kf attr, kf ∈ fields -> dict_get d kf.1 = Some attr ->
                                        acceptable classes kf attr)); [|exact H0|exact E].
    intros d1 kf d2 Hin Hinv Hset. cbn in Hset.
    destruct (hasattr d1 kf.1); [now injection Hset as <-|].
    eapply setattr_acceptable; [exact Hf|exact Hdef|constructor|exact Hinv|exact Hset]. }
  assert (forall (fs : list (string * Field)) d1 d2,
             for_fold (fun d kf => if hasattr d kf.1 then Ok d
                                   else FieldInstance_setattr classes cls d kf.1 VNone)
               d1 fs = Ok d2 ->
             (forall k, hasattr d1 k = true -> hasattr d2 k = true)
             /\ forall kf, kf ∈ fs -> hasattr d2 kf.1 = true) as Hpresent.
  { induction fs as [|kf fs IH]; intros d1 d2 Hfold; cbn in Hfold.
    - injection Hfold as <-. split; [auto|]. intros kf Hin. now apply elem_of_nil in Hin.
    - inv_bind Hfold. rename a into d3. destruct (IH _ _ Hfold) as [Hmono Hall].
      assert (hasattr d3 kf.1 = true /\ forall k, hasattr d1 k = true -> hasattr d3 k = true)
        as [Hkf Hm3].
      { destruct (hasattr d1 kf.1) eqn:Eh.
        - injection E1 as <-. auto.
        - apply setattr_Ok in E1 as [v ->]. split.
          + rewrite hasattr_set. now rewrite bool_decide_eq_true_2.
          + intros k Hk. rewrite hasattr_set, Hk. apply orb_true_r. }
      split; [auto|]. intros kf' [->|Hin]%elem_of_cons; auto. }
  destruct (Hpresent fields d0 d E) as [_ Hall].
  econstructor; [exact Hf|]. apply Forall_forall. intros kf Hin.
  specialize (Hall kf Hin). unfold hasattr in Hall.
  destruct (dict_get d kf.1) as [attr|] eqn:Hattr; [|discriminate].
  exists attr. split; [reflexivity|]. exact (H1 kf attr Hin Hattr).
Qed.

End Constructed.

(** ** The round trip *)

Section RoundTrip.
Context (classes : class_table).

Lemma build_kwargs_Forall2 (des : Field -> bytes -> result value)
  (Q : string * Field -> bytes -> Prop)
  (T : string * Field -> string * value -> Prop) fields array :
  Forall2 Q fields array ->
  (forall kf item, kf ∈ fields -> Q kf item ->
     exists v, (if bool_decide (item = []) then Ok VNone else des kf.2 item) = Ok v
               /\ T kf (kf.1, v)) ->
  exists kwargs, build_kwargs des (zip fields array) = Ok kwargs
                 /\ Forall2 T fields kwargs.
Proof.
  induction 1 as [|[key field] item fields array HQ _ IH]; intros Hstep; cbn.
  - exists []. split; [reflexivity|constructor].
  - destruct (Hstep (key, field) item ltac:(left) HQ) as (v & Hv & HT).
    cbn in Hv. rewrite Hv. cbn.
    destruct IH as (kwargs & -> & Hall).
    { intros kf it Hin. apply Hstep. now right. }
    cbn. exists ((key, v) :: kwargs). split; [reflexivity|now constructor].
Qed.

(** Every valid value that [field.serialize] accepts is read back by
    [field.deserialize]. *)
Lemma roundtrip_value n :
  forall f x data,
    (value_size x < n)%nat -> valid classes f x ->
    serialize classes x f = Ok data ->
    exists x', deserialize classes f data = Ok x' /\ reread classes f x x'.
Proof.
  induction n as [|n IH]; intros f x data Hsize Hv Hs; [lia|].
  inversion Hv; subst.
  - (* String *)
    cbn in Hs. inv_bind Hs. injection Hs as <-.
    exists (VStr s). split; [|constructor].
    unfold deserialize. cbn [deserialize_fuel]. unfold String_deserialize.
    rewrite slice_from_nonneg by lia.
    change (drop (Z.to_nat 1) (x01%byte :: a)) with a.
    now rewrite (utf8_decode_encode _ _ E).
  - (* Integer *)
    cbn [serialize] in Hs. exists (VInt i). split; [|constructor].
    unfold deserialize. cbn [deserialize_fuel].
    now rewrite (Integer_roundtrip _ _ _ Hs).
  - (* Boolean *)
    cbn in Hs. exists (VBool b). split; [|constructor].
    destruct b; injection Hs as <-; reflexivity.
  - (* Bytes *)
    cbn in Hs. injection Hs as <-. exists (VBytes b). split; [|constructor].
    unfold deserialize. cbn [deserialize_fuel]. unfold Bytes_deserialize.
    rewrite slice_from_nonneg by lia. reflexivity.
  - (* List *)
    rewrite serialize_list in Hs. inv_bind Hs. rename a into body.
    injection Hs as <-.
    unfold deserialize. set (n0 := length (x01%byte :: body)).
    assert (n0 = S (length body)) as Hn0 by reflexivity.
    cbn [deserialize_fuel].
    rewrite (List_loop_stable _ (deserialize classes inner_field) n0 n0
               (x01%byte :: body) 1);
      [|lia|intros c Hc; apply deserialize_fuel_deserialize; cbn in Hc; lia
       |unfold len; cbn [length]; lia..].
    destruct (List_loop_chunks (fun attr => serialize classes attr inner_field)
                (deserialize classes inner_field) (reread classes inner_field)
                l body [x01%byte] n0 E) as (l' & Hloop & HF).
    + apply Forall_forall. intros y Hy.
      pose proof (proj1 (Forall_forall _ _) H y Hy) as Hvy.
      split; [pose proof (valid_not_None _ _ _ Hvy); now destruct y|].
      intros payload Hp. split; [eapply serialize_len; eassumption|].
      apply (IH inner_field y payload); [|exact Hvy|exact Hp].
      pose proof (value_size_item y l Hy). lia.
    + unfold len. lia.
    + change ([x01%byte] ++ body) with (x01%byte :: body) in Hloop.
      change (len [x01%byte]) with 1 in Hloop. rewrite Hloop. cbn.
      exists (VList l'). split; [reflexivity|now constructor].
  - (* Record *)
    rewrite serialize_instance, H in Hs. cbn in Hs. inv_bind Hs.
    rename a into body. injection Hs as <-.
    rewrite deserialize_record. unfold chunks.
    destruct (chunks_loop_payloads (fun field attr => serialize classes attr field)
                d fields ltac:(intros ? ? ?; apply serialize_len)
                body [x01%byte] (length (x01%byte :: body)) E
                ltac:(unfold len; cbn [length]; lia))
      as (array & Hloop & HF).
    change ([x01%byte] ++ body) with (x01%byte :: body) in Hloop.
    change (len [x01%byte]) with 1 in Hloop. rewrite Hloop.
    cbn [mbind result_bind]. rewrite H. cbn [mbind result_bind].
    destruct (build_kwargs_Forall2 (deserialize classes) _
                (fun kf kv =>
                   stored_as_is kf kv
                   /\ kv.1 = kf.1
                   /\ exists attr, dict_get d kf.1 = Some attr
                        /\ ((attr = VNone /\ kv.2 = VNone)
                            \/ (attr <> VNone /\ reread classes kf.2 attr kv.2)))
                fields array HF) as (kwargs & Hk & Hall).
    { intros [key field] item Hin (attr & Hattr & Hcase). cbn [fst snd] in *.
      pose proof (proj1 (Forall_forall _ _) H0 _ Hin) as (attr' & Hattr' & Hvalid).
      cbn [fst snd] in Hattr', Hvalid. rewrite Hattr in Hattr'. injection Hattr' as <-.
      destruct Hcase as [[-> ->]|[Hn Hitem]].
      - exists VNone. split; [reflexivity|].
        destruct Hvalid as [(_ & Ho & Hd)|[Hc _]]; [|contradiction].
        split; [split; cbn; auto|]. split; [reflexivity|]. exists VNone. auto.
      - destruct Hvalid as [(-> & _)|[_ Hvalid]]; [contradiction|].
        pose proof (serialize_len _ _ _ _ Hitem) as Hlen.
        destruct (IH field attr item) as (x' & Hx' & Hr); [|exact Hvalid|exact Hitem|].
        { pose proof (value_size_attr cls d key attr Hattr). lia. }
        exists x'. split.
        + rewrite bool_decide_eq_false_2; [exact Hx'|].
          intros ->. unfold len in Hlen. cbn in Hlen. lia.
        + split; [split; cbn [fst snd]; [reflexivity|]|].
          * right. split; [eapply reread_not_None; eassumption|].
            eapply reread_run_checks; eassumption.
          * split; [reflexivity|]. exists attr. auto. }
    rewrite Hk. cbn [mbind result_bind]. rewrite make_eq.
    rewrite (init_as_is classes cls fields kwargs H).
    2:{ eapply Forall2_impl; [exact Hall|]. now intros ? ? [? _]. }
    cbn. exists (VInstance cls kwargs). split; [reflexivity|].
    econstructor; [exact H|].
    eapply Forall2_impl; [exact Hall|]. now intros ? ? [_ ?].
Qed.



End RoundTrip.






Example Gauge_negative_serialize :
  make sample_classes (required 0) "Gauge" [("level", VInt (-1))] = Ok Gauge_negative
  /\ serialize sample_classes Gauge_negative (FRecord (required 0) "Gauge")
     = Raise OverflowError
  /\ make sample_classes (required 0) "Named" [("name", VStr [0xD800])]
     = Ok (VInstance "Named" [("name", VStr [0xD800])])
  /\ serialize sample_classes (VInstance "Named" [("name", VStr [0xD800])])
       (FRecord (required 0) "Named") = Raise UnicodeEncodeError.
Proof. vm_compute. repeat split; reflexivity. Qed.

Example encode_length_5 : encode_length 5 = Ok [x05%byte].
Proof. reflexivity. Qed.

Example encode_length_300 : encode_length 300 = Ok [xfb; x01; x2c]%byte.
Proof. vm_compute. reflexivity. Qed.

Example encode_length_0 : encode_length 0 = Ok [].
Proof. reflexivity. Qed.

(** C3, as the code has it.  For every length [n] with [1 <= n < 2^48] the
    encoder returns a prefix [e]: the single byte [n] when [n <= 0xf9];
    otherwise the byte [0xf9 + k] followed by the [k] big-endian bytes of
    [n], [k] being the minimum number of bytes that represent [n]; and the
    decoder, placed on that prefix anywhere in a buffer, returns [n] and the
    prefix's length.  The decoder reads one byte [b]: below [0xfa] it is the
    length, otherwise the next [b - 0xf9] bytes, big-endian, are.  (Length
    [0] is outside: see [encode_length_zero_no_byte].) *)
Theorem length_codec_spec :
  (forall n, 1 <= n < 2 ^ 48 ->
     exists e, encode_length n = Ok e
       /\ (n <= 0xf9 -> e = [byte.of_Z n])
       /\ (0xfa <= n ->
           exists k, minimal_byte_count n k
             /\ e = byte.of_Z (0xf9 + k) :: big_endian (Z.to_nat k) n)
       /\ (forall pre post, decode_length (pre ++ e ++ post) (len pre) = (n, len e)))
  /\ (forall (data : bytes) index b,
        0 <= index -> data !! Z.to_nat index = Some b ->
        decode_length data index =
          if byte.unsigned b <? 0xfa then (byte.unsigned b, 1)
          else
            let k := byte.unsigned b - 0xf9 in
            (from_bytes (slice data (index + 1) (index + 1 + k)) false, 1 + k)).
Proof.
  split.
  - intros n [Hlo Hhi].
    destruct (Z_le_gt_dec n 0xf9) as [Hs|Hl].
    + exists [byte.of_Z n]. pose proof (encode_length_byte n ltac:(lia)) as E.
      split; [exact E|]. split; [reflexivity|]. split; [lia|].
      intros pre post. now apply decode_length_encode.
    + destruct (encode_length_long n ltac:(lia)) as [E Hk].
      eexists. split; [exact E|]. split; [lia|]. split.
      * intros _. eexists. split; [|reflexivity].
        apply minimal_byte_count_iff; [lia|reflexivity].
      * intros pre post. now apply decode_length_encode.
  - intros data index b Hi Hb. now apply decode_length_eq.
Qed.

Lemma length_codec_spec_witness :
  (exists e, encode_length 300 = Ok e
     /\ (300 <= 0xf9 -> e = [byte.of_Z 300])
     /\ (0xfa <= 300 ->
         exists k, minimal_byte_count 300 k
           /\ e = byte.of_Z (0xf9 + k) :: big_endian (Z.to_nat k) 300)
     /\ (forall pre post,
           decode_length (pre ++ e ++ post) (len pre) = (300, len e)))
  /\ decode_length [xfb; x01; x2c]%byte 0 = (300, 3).
Proof.
  split.
  - apply (proj1 length_codec_spec 300). lia.
  - apply (proj2 length_codec_spec [xfb; x01; x2c]%byte 0 xfb%byte); [lia|reflexivity].
Defined.

(** C3 as stated fails at length [0]: the encoder emits no byte at all, not
    the single byte [0x00]. *)
Lemma encode_length_zero_no_byte :
  ~ (forall n, 0 <= n <= 0xf9 -> encode_length n = Ok [byte.of_Z n]).
Proof. intros H. specialize (H 0 ltac:(lia)). discriminate H. Qed.

(** C6.  For a length [n >= 0] the encoder raises
    [ValidationError("length too big")] exactly when [n >= 2^48], that is
    when [n >= 0xfa] and the minimal big-endian representation of [n] needs
    more than 6 bytes; below that bound it returns a prefix, which in the
    multi-byte case is the marker byte followed by at most 6 length bytes. *)
Theorem encode_length_too_large_iff (n : Z) :
  0 <= n ->
  (encode_length n = Raise (ValidationError "length too big") <-> 2 ^ 48 <= n)
  /\ (2 ^ 48 <= n <-> 0xfa <= n /\ exists k, minimal_byte_count n k /\ 6 < k)
  /\ (n < 2 ^ 48 ->
      exists e, encode_length n = Ok e /\ len e <= 7
        /\ (0xfa <= n ->
            exists k, 1 <= k <= 6
              /\ e = byte.of_Z (0xf9 + k) :: big_endian (Z.to_nat k) n)).
Proof.
  intros Hn. assert (0 < 2 ^ 48) as H48 by (apply pow2_pos; lia).
  assert (2 ^ 48 = 281474976710656) as E48 by reflexivity.
  split; [|split].
  - split; [|apply encode_length_too_big].
    intros E. destruct (Z_lt_le_dec n (2 ^ 48)) as [Hlt|]; [|assumption].
    exfalso. destruct (Z_le_gt_dec 0xfa n).
    + destruct (encode_length_long n ltac:(lia)) as [E' _]. congruence.
    + rewrite encode_length_eq in E by lia. cbv zeta in E.
      destruct (Z.leb_spec 0xfa n); [lia|discriminate].
  - split.
    + intros H. split; [lia|]. exists (Z.shiftr (bit_length n + 7) 3).
      split; [apply minimal_byte_count_iff; [lia|reflexivity]|].
      apply byte_count_gt; [lia|]. exact H.
    + intros [H (k & Hk & H6)].
      apply minimal_byte_count_iff in Hk; [|lia]. subst k.
      destruct (Z_lt_le_dec n (2 ^ 48)) as [Hlt|]; [|assumption].
      pose proof (byte_count_le n 6 ltac:(lia) ltac:(lia) Hlt). lia.
  - intros Hlt. destruct (Z_le_gt_dec 0xfa n).
    + destruct (encode_length_long n ltac:(lia)) as [E Hk].
      eexists. split; [exact E|]. split.
      * rewrite len_cons, len_big_endian. lia.
      * intros _. eexists. split; [exact Hk|reflexivity].
    + rewrite encode_length_eq by lia. cbv zeta.
      destruct (Z.leb_spec 0xfa n); [lia|].
      eexists. split; [reflexivity|]. split; [|lia].
      rewrite len_big_endian.
      pose proof (byte_count_le n 1 ltac:(lia) ltac:(lia) ltac:(simpl; lia)).
      pose proof (byte_count_nonneg n). lia.
Qed.

Lemma encode_length_too_large_iff_witness :
  (encode_length (2 ^ 48) = Raise (ValidationError "length too big")
   <-> 2 ^ 48 <= 2 ^ 48)
  /\ (2 ^ 48 <= 2 ^ 48 <->
      0xfa <= 2 ^ 48 /\ exists k, minimal_byte_count (2 ^ 48) k /\ 6 < k)
  /\ (2 ^ 48 < 2 ^ 48 ->
      exists e, encode_length (2 ^ 48) = Ok e /\ len e <= 7
        /\ (0xfa <= 2 ^ 48 ->
            exists k, 1 <= k <= 6
              /\ e = byte.of_Z (0xf9 + k) :: big_endian (Z.to_nat k) (2 ^ 48))).
Proof. apply (encode_length_too_large_iff (2 ^ 48)). vm_compute. discriminate. Defined.

(** * Part III: further properties of the code *)

(** ** [Integer]: which integers serialize, and on how many bytes *)

Section IntegerWidth.

(** The width in bytes that [Integer.serialize] asks [to_bytes] for (lines
    364-367). *)
Lemma Integer_serialize_width signed i :
  Integer_serialize signed (VInt i)
  = to_bytes i (Integer_width signed i) signed.
Proof. reflexivity. Qed.

Lemma Integer_width_pos signed i : 1 <= Integer_width signed i.
Proof. unfold Integer_width. lia. Qed.






End IntegerWidth.

(** [Integer.serialize] followed by [Integer.deserialize] (lines 363-370):
    whenever [serialize] returns, it returns at least one byte, the
    big-endian digits of [i] on that many bytes, and [deserialize] gives
    [i] back, with [signed] set or not. *)
Theorem Integer_round_trip (signed : bool) (i : Z) (data : bytes) :
  Integer_serialize signed (VInt i) = Ok data ->
  1 <= len data
  /\ data = big_endian (Z.to_nat (len data)) i
  /\ Integer_deserialize signed data = VInt i.
Proof.
  intros H. split; [now apply Integer_serialize_len in H|].
  split; [|now apply Integer_roundtrip].
  rewrite Integer_serialize_width in H.
  pose proof (to_bytes_len _ _ _ _ H) as ->.
  now apply to_bytes_ok in H as (_ & -> & _).
Qed.

Lemma Integer_round_trip_witness :
  1 <= len [xff; x00]%byte
  /\ [xff; x00]%byte = big_endian (Z.to_nat (len [xff; x00]%byte)) (-256)
  /\ Integer_deserialize true [xff; x00]%byte = VInt (-256).
Proof. apply (Integer_round_trip true (-256)). reflexivity. Defined.

(** [Integer.serialize] with [signed=False] (lines 363-367): a negative
    integer raises [OverflowError]; every other integer serializes, to the
    least number of bytes that hold it, and to one byte for zero. *)
Theorem Integer_unsigned_serialize (i : Z) :
  (i < 0 -> Integer_serialize false (VInt i) = Raise OverflowError)
  /\ (0 <= i ->
      exists data, Integer_serialize false (VInt i) = Ok data
        /\ len data = Z.max (Z.shiftr (bit_length i + 7) 3) 1
        /\ i < 256 ^ len data
        /\ (1 < len data -> 256 ^ (len data - 1) <= i)).
Proof.
  rewrite Integer_serialize_width. split.
  - intros Hi. unfold to_bytes.
    pose proof (Integer_width_pos false i).
    destruct (Z.ltb_spec (Integer_width false i) 0); [lia|].
    destruct (Z.ltb_spec i 0); [reflexivity|lia].
  - intros Hi.
    assert (Integer_width false i = Z.max (Z.shiftr (bit_length i + 7) 3) 1) as Hw
      by reflexivity.
    set (n := Integer_width false i) in *.
    assert (1 <= n) as Hn by apply Integer_width_pos.
    assert (i < 2 ^ (8 * n)) as Hup.
    { eapply Z.lt_le_trans; [apply (byte_count_upper i Hi)|].
      apply pow2_le_mono. pose proof (byte_count_nonneg i). lia. }
    assert (1 < n -> 2 ^ (8 * (n - 1)) <= i) as Hlow.
    { intros H1. destruct (Z.eq_dec i 0) as [->|].
      { change (Z.max (Z.shiftr (bit_length 0 + 7) 3) 1) with 1 in Hw. lia. }
      assert (n = Z.shiftr (bit_length i + 7) 3) as -> by lia.
      apply byte_count_lower. lia. }
    exists (big_endian (Z.to_nat n) i).
    rewrite len_big_endian, Z2Nat.id by lia.
    rewrite !pow256 by lia. split; [|auto].
    unfold to_bytes. destruct (Z.ltb_spec n 0); [lia|].
    destruct (Z.ltb_spec i 0); [lia|].
    destruct (Z.ltb_spec i (2 ^ (8 * n))); [reflexivity|lia].
Qed.


(** ** [String], [Bytes], [Boolean] *)

Section Plugins.

Lemma utf8_encode_char_len c e :
  utf8_encode_char c = Ok e -> 1 <= len e <= 4.
Proof.
  unfold utf8_encode_char.
  repeat match goal with
         | |- context [if ?c then _ else _] => destruct c
         end; intros [= <-]; unfold len; simpl; lia.
Qed.

Lemma utf8_encode_len s e :
  utf8_encode s = Ok e -> len s <= len e <= 4 * len s.
Proof.
  revert e. induction s as [|c s IH]; intros e H; cbn [utf8_encode] in H.
  - injection H as <-. unfold len. simpl. lia.
  - inv_bind H. inv_bind H. injection H as <-.
    apply utf8_encode_char_len in E. specialize (IH _ E0).
    rewrite len_app, len_cons. lia.
Qed.

Lemma slice_from_cons (b : byte) (rest : bytes) : slice_from (b :: rest) 1 = rest.
Proof.
  rewrite slice_from_nonneg by lia. reflexivity.
Qed.

End Plugins.

(** [String.serialize] followed by [String.deserialize] (lines 349-354):
    only a [str] serializes; what comes out is the byte [0x01] and then
    between one and four bytes for each character, and [deserialize] gives
    the string back. *)
Theorem String_round_trip (v : value) (data : bytes) :
  String_serialize v = Ok data ->
  exists s e, v = VStr s /\ data = x01%byte :: e
    /\ len s <= len e <= 4 * len s
    /\ String_deserialize data = Ok (VStr s).
Proof.
  destruct v as [| | |s| | |]; try discriminate. cbn [String_serialize].
  intros H. inv_bind H. injection H as <-. rename a into e.
  exists s, e. split; [reflexivity|]. split; [reflexivity|].
  split; [now apply utf8_encode_len|].
  unfold String_deserialize. rewrite slice_from_cons.
  now rewrite (utf8_decode_encode _ _ E).
Qed.

Lemma String_round_trip_witness :
  exists s e, VStr [0x41; 0xE9; 0x20AC] = VStr s
    /\ [x01; x41; xc3; xa9; xe2; x82; xac]%byte = x01%byte :: e
    /\ len s <= len e <= 4 * len s
    /\ String_deserialize [x01; x41; xc3; xa9; xe2; x82; xac]%byte = Ok (VStr s).
Proof. apply (String_round_trip (VStr [0x41; 0xE9; 0x20AC])). reflexivity. Defined.


(** [Boolean.serialize] followed by [Boolean.deserialize] (lines 441-445):
    the truth value of the object is written as one byte and read back;
    [deserialize] returns [True] for the buffer [b'\x01'] and [False] for
    every other buffer, the empty one included. *)
Theorem Boolean_round_trip (v : value) (data : bytes) :
  Boolean_deserialize (Boolean_serialize v) = VBool (truthy v)
  /\ len (Boolean_serialize v) = 1
  /\ (Boolean_deserialize data = VBool true <-> data = [x01%byte]).
Proof.
  split; [|split].
  - unfold Boolean_serialize. now destruct (truthy v).
  - unfold Boolean_serialize. now destruct (truthy v).
  - unfold Boolean_deserialize. split.
    + intros [= H]. now apply bool_decide_eq_true_1 in H.
    + intros ->. reflexivity.
Qed.

(** ** The marker byte *)

Section Marker.

Context (classes : class_table).

Lemma slice_cons_any (m m' : byte) (rest : bytes) a b :
  1 <= a <= b -> slice (m :: rest) a b = slice (m' :: rest) a b.
Proof.
  intros H. rewrite !slice_nonneg by lia.
  destruct (Z.to_nat a) as [|k] eqn:E; [lia|]. reflexivity.
Qed.

Lemma decode_length_cons_any (m m' : byte) (rest : bytes) i :
  1 <= i -> decode_length (m :: rest) i = decode_length (m' :: rest) i.
Proof.
  intros H. unfold decode_length.
  rewrite (slice_cons_any m m' rest i (i + 1)) by lia.
  destruct (Z.leb_spec 0xfa (from_bytes (slice (m' :: rest) i (i + 1)) false));
    [|reflexivity].
  now rewrite (slice_cons_any m m') by lia.
Qed.

Lemma chunks_loop_cons_any (m m' : byte) (rest : bytes) fuel :
  forall i, 1 <= i ->
    chunks_loop fuel (m :: rest) i = chunks_loop fuel (m' :: rest) i.
Proof.
  induction fuel as [|fuel IH]; intros i Hi; cbn [chunks_loop];
    rewrite !len_cons; [reflexivity|].
  destruct (i <? 1 + len rest); [|reflexivity].
  rewrite (decode_length_cons_any m m') by exact Hi.
  pose proof (decode_length_nonneg (m' :: rest) i) as [Hl Hll].
  destruct (decode_length (m' :: rest) i) as [l ll]. cbn [fst snd] in Hl, Hll.
  rewrite IH by lia. now rewrite (slice_cons_any m m') by lia.
Qed.

Lemma List_loop_cons_any des (m m' : byte) (rest : bytes) fuel :
  forall i, 1 <= i ->
    List_loop des fuel (m :: rest) i = List_loop des fuel (m' :: rest) i.
Proof.
  induction fuel as [|fuel IH]; intros i Hi; cbn [List_loop];
    rewrite !len_cons; [reflexivity|].
  destruct (i <? 1 + len rest); [|reflexivity].
  rewrite (decode_length_cons_any m m') by exact Hi.
  pose proof (decode_length_nonneg (m' :: rest) i) as [Hl Hll].
  destruct (decode_length (m' :: rest) i) as [l ll]. cbn [fst snd] in Hl, Hll.
  rewrite IH by lia. now rewrite (slice_cons_any m m') by lia.
Qed.

Lemma serialize_String v o m :
  serialize classes v (FString o m) = String_serialize v.
Proof. now destruct v. Qed.

Lemma serialize_Integer v o signed :
  serialize classes v (FInteger o signed) = Integer_serialize signed v.
Proof. now destruct v. Qed.

Lemma serialize_Boolean v o :
  serialize classes v (FBoolean o) = Ok (Boolean_serialize v).
Proof. now destruct v. Qed.

Lemma serialize_Bytes v o :
  serialize classes v (FBytes o) = Bytes_serialize v.
Proof. now destruct v. Qed.

Lemma serialize_flat_marker f v data :
  has_marker f = true -> serialize_flat classes f v = Ok data ->
  exists rest, data = x01%byte :: rest.
Proof.
  destruct f as [o m|o sg|o inner|o|o|o cls]; try discriminate; intros _ H;
    cbn [serialize_flat] in H.
  - destruct v; try discriminate. cbn [String_serialize] in H. inv_bind H.
    injection H as <-. eauto.
  - inv_bind H. inv_bind H. injection H as <-. eauto.
  - destruct v; try discriminate. injection H as <-. eauto.
  - inv_bind H. destruct a; [|discriminate]. injection H as <-. eauto.
Qed.

End Marker.

(** The marker byte (lines 299, 320, 351, 354, 409, 429, 452, 455).
    [serialize] of a record, a [List], a [String] or a [Bytes] field puts
    the byte [0x01] first; [deserialize] of such a field never looks at the
    first byte of its buffer: any other byte in its place gives the same
    result. *)
Theorem marker_written_not_read (classes : class_table) (f : Field) :
  has_marker f = true ->
  (forall v data, serialize classes v f = Ok data ->
                  exists rest, data = x01%byte :: rest)
  /\ (forall m m' rest,
        deserialize classes f (m :: rest) = deserialize classes f (m' :: rest)).
Proof.
  intros Hf. split.
  - intros v data H.
    destruct f as [o m|o sg|o inner|o|o|o cls]; try discriminate.
    + rewrite serialize_String in H.
      now apply (serialize_flat_marker classes (FString o m) v).
    + destruct v; cbn [serialize] in H;
        try (now apply (serialize_flat_marker classes (FList o inner)) in H).
      inv_bind H. injection H as <-. eauto.
    + rewrite serialize_Bytes in H.
      now apply (serialize_flat_marker classes (FBytes o) v).
    + destruct v; cbn [serialize] in H;
        try (now apply (serialize_flat_marker classes (FRecord o cls)) in H).
      inv_bind H. inv_bind H. injection H as <-. eauto.
  - intros m m' rest. unfold deserialize. cbn [length].
    destruct f as [o mx|o sg|o inner|o|o|o cls]; try discriminate;
      cbn [deserialize_fuel].
    + unfold String_deserialize. now rewrite !slice_from_cons.
    + now rewrite (List_loop_cons_any _ m m') by lia.
    + unfold Bytes_deserialize. now rewrite !slice_from_cons.
    + now rewrite (chunks_loop_cons_any m m') by lia.
Qed.

Lemma marker_written_not_read_witness :
  (forall v data,
      serialize sample_classes v (FRecord (required 0) "Blob") = Ok data ->
      exists rest, data = x01%byte :: rest)
  /\ (forall m m' rest,
        deserialize sample_classes (FRecord (required 0) "Blob") (m :: rest)
        = deserialize sample_classes (FRecord (required 0) "Blob") (m' :: rest)).
Proof.
  apply (marker_written_not_read sample_classes (FRecord (required 0) "Blob")).
  reflexivity.
Defined.

(** ** Termination of the reading loops *)

(** The loops of [Field.deserialize] and [List.deserialize] (lines 320-325
    and 429-434) come to an end on every buffer, well formed or not: each
    turn moves the index forward, and each nested call gets a shorter
    buffer.  One unit of fuel more than the buffer has bytes is enough, and
    more fuel changes nothing. *)
Theorem deserialize_terminates (classes : class_table) (f : Field)
  (data : bytes) (fuel : nat) :
  (length data < fuel)%nat ->
  deserialize_fuel classes fuel f data = deserialize classes f data
  /\ deserialize classes f data <> OutOfFuel
  /\ exists array, chunks data = Ok array
       /\ Forall (fun c => (length c + 2 <= length data)%nat) array.
Proof.
  intros H. split; [now apply deserialize_fuel_deserialize|].
  split; [apply deserialize_not_OutOfFuel|].
  destruct (chunks_Ok data) as [array E]. exists array. split; [exact E|].
  unfold chunks in E. now apply chunks_loop_shorter in E.
Qed.

Lemma deserialize_terminates_witness :
  deserialize_fuel sample_classes 9 (FRecord (required 0) "Tree")
    [x01; xff; xff; xff]%byte
  = deserialize sample_classes (FRecord (required 0) "Tree")
      [x01; xff; xff; xff]%byte
  /\ deserialize sample_classes (FRecord (required 0) "Tree")
       [x01; xff; xff; xff]%byte <> OutOfFuel
  /\ exists array, chunks [x01; xff; xff; xff]%byte = Ok array
       /\ Forall (fun c => (length c + 2 <= length [x01; xff; xff; xff]%byte)%nat)
            array.
Proof.
  apply (deserialize_terminates sample_classes (FRecord (required 0) "Tree")
           [x01; xff; xff; xff]%byte 9).
  simpl. lia.
Defined.

(** ** [get_fields] *)

(** [Field.get_fields] (lines 277-287): a class without [fields] raises
    [NotImplementedError] with the class name in the message; otherwise the
    result holds each [Field] among the locals of [fields] once, under the
    name of its variable, and none of the other locals. *)
Theorem get_fields_spec (classes : class_table) (cls : string) :
  (classes !! cls = None ->
     get_fields classes cls
     = Raise (NotImplementedError (cls +:+ " has no fields")))
  /\ (forall locals, classes !! cls = Some locals ->
        exists fields, get_fields classes cls = Ok fields
          /\ NoDup fields.*1
          /\ (forall key f,
                (key, f) ∈ fields <-> locals !! key = Some (LocalField f))
          /\ (forall key v, locals !! key = Some (LocalOther v) ->
                key ∉ fields.*1)).
Proof.
  split.
  - intros H. unfold get_fields. now rewrite H.
  - intros locals H.
    destruct (get_fields classes cls) as [fields| |] eqn:E;
      try (unfold get_fields in E; rewrite H in E; discriminate).
    exists fields. split; [reflexivity|].
    split; [now apply (get_fields_NoDup classes cls)|]. split.
    + intros key f. rewrite (get_fields_elem classes cls fields key f E).
      split.
      * intros (m & Hm & Hk). congruence.
      * intros Hk. eauto.
    + intros key v Hk Hin. apply list_elem_of_fmap in Hin as ([k f] & -> & Hin).
      apply (get_fields_elem classes cls fields k f E) in Hin as (m & Hm & Hf).
      cbn in Hk. congruence.
Qed.

(** ** The checks of an assignment *)

Section Checks.

Lemma check_raises f v e :
  check f v = Raise e -> e = TypeError \/ exists msg, e = ValidationError msg.
Proof.
  revert v e. induction f as [o m|o sg|o inner IH|o|o|o cls]; intros v e H;
    cbn [check] in H; try discriminate.
  - destruct m as [m|]; [|discriminate].
    destruct v; cbn in H; try (injection H as <-; now left);
      match type of H with
      | (if ?c then _ else _) = _ => destruct c; [|discriminate]
      end; injection H as <-; right; eauto.
  - destruct (py_iter v) as [items|e'|] eqn:Ei; cbn [mbind result_bind] in H.
    + apply for_each_Raise in H as (x & _ & Hx).
      destruct (check inner x) as [[]|e'|] eqn:Ec; cbn [prepend] in Hx;
        try discriminate.
      destruct (IH _ _ Ec) as [->|[msg ->]].
      * injection Hx as <-. now left.
      * injection Hx as <-. right. eauto.
    + injection H as <-. destruct v; cbn in Ei; try discriminate;
        injection Ei as <-; now left.
    + discriminate.
Qed.

Lemma check_type_class_name f v :
  check_type f v = Ok tt -> class_name v = type_name f.
Proof.
  intros H. destruct f as [o m|o sg|o inner|o|o|o cls];
    try (apply check_type_class; [discriminate|exact H]).
  cbn [check_type] in H. destruct v; try discriminate. reflexivity.
Qed.

End Checks.

(** [Field.check_type] and [List.check_type] (lines 271-275, 380-389): an
    object that passes is never [None] and has the class name of the
    field's [type]; under a [List] field it is a list whose items all pass
    the inner field's [check_type]; under a field with [fields] of its own
    it is an instance of the record type made for that class. *)
Theorem check_type_accepts (f : Field) (v : value) :
  check_type f v = Ok tt ->
  v <> VNone
  /\ class_name v = type_name f
  /\ (forall o inner, f = FList o inner ->
        exists l, v = VList l
          /\ Forall (fun x => check_type inner x = Ok tt /\ x <> VNone) l)
  /\ (forall o cls, f = FRecord o cls -> exists d, v = VInstance cls d).
Proof.
  intros H. split; [|split; [|split]].
  - intros ->. now apply check_type_not_None in H.
  - now apply check_type_class_name.
  - intros o inner ->. cbn [check_type] in H. destruct v; try discriminate.
    exists l. split; [reflexivity|]. apply for_each_Ok in H.
    eapply Forall_impl; [exact H|]. intros x Hx. cbn in Hx.
    apply prepend_Ok in Hx. split; [exact Hx|].
    intros ->. now apply check_type_not_None in Hx.
  - intros o cls ->. apply check_type_class_name in H.
    now apply class_name_Instance in H.
Qed.

Lemma check_type_accepts_witness :
  VList [VStr [0x61]; VStr []] <> VNone
  /\ class_name (VList [VStr [0x61]; VStr []])
     = type_name (FList (required 1) (FString (required 0) None))
  /\ (forall o inner, FList (required 1) (FString (required 0) None) = FList o inner ->
        exists l, VList [VStr [0x61]; VStr []] = VList l
          /\ Forall (fun x => check_type inner x = Ok tt /\ x <> VNone) l)
  /\ (forall o cls, FList (required 1) (FString (required 0) None) = FRecord o cls ->
        exists d, VList [VStr [0x61]; VStr []] = VInstance cls d).
Proof.
  apply (check_type_accepts (FList (required 1) (FString (required 0) None))).
  reflexivity.
Defined.

(** The checks of [__setattr__] (lines 224-228) never let through an object
    other than [None] whose class name is not that of the field's [type]:
    they raise.  [check] runs before [check_type], so the exception is a
    [ValidationError], or the [TypeError] that [check] runs into when it
    takes the length of the object or iterates over it; an [int] given to a
    [String] field with a [max_length] raises [TypeError]. *)
Theorem wrong_type_rejected (f : Field) (v : value) :
  v <> VNone -> class_name v <> type_name f ->
  (exists e, run_checks f v = Raise e
     /\ (e = TypeError \/ exists msg, e = ValidationError msg))
  /\ (forall o m i, f = FString o (Some m) -> v = VInt i ->
        run_checks f v = Raise TypeError)
  /\ (forall o i, f = FString o None -> v = VInt i ->
        run_checks f v
        = Raise (ValidationError "is of type int, expected str")).
Proof.
  intros Hn Hc. split; [|split].
  - unfold run_checks. destruct (is_None v) eqn:En; [now destruct v|].
    destruct (check f v) as [[]|e|] eqn:E; cbn [mbind result_bind].
    + destruct (check_type f v) as [[]|e|] eqn:Et.
      * now apply check_type_class_name in Et.
      * exists e. split; [reflexivity|]. right.
        destruct f as [o m|o sg|o inner|o|o|o cls]; cbn [check_type] in Et;
          try (destruct (bool_decide (class_name v <> _)); [|discriminate];
               injection Et as <-; eauto).
        destruct v; try (injection Et as <-; eauto).
        now contradiction Hc.
      * now apply check_type_not_OutOfFuel in Et.
    + exists e. split; [reflexivity|]. now apply (check_raises f v).
    + now apply check_not_OutOfFuel in E.
  - intros o m i -> ->. reflexivity.
  - intros o i -> ->. reflexivity.
Qed.

Lemma wrong_type_rejected_witness :
  (exists e, run_checks (FList (required 0) (FInteger (required 1) true)) (VInt 3)
             = Raise e
     /\ (e = TypeError \/ exists msg, e = ValidationError msg))
  /\ (forall o m i,
        FList (required 0) (FInteger (required 1) true) = FString o (Some m) ->
        VInt 3 = VInt i ->
        run_checks (FList (required 0) (FInteger (required 1) true)) (VInt 3)
        = Raise TypeError)
  /\ (forall o i,
        FList (required 0) (FInteger (required 1) true) = FString o None ->
        VInt 3 = VInt i ->
        run_checks (FList (required 0) (FInteger (required 1) true)) (VInt 3)
        = Raise (ValidationError "is of type int, expected str")).
Proof.
  apply (wrong_type_rejected (FList (required 0) (FInteger (required 1) true))
           (VInt 3)); [discriminate|].
  vm_compute. discriminate.
Defined.

(** ** What a record holds *)

Section Checked.

Context (classes : class_table).






End Checked.





(** ** More round trips *)

Section Canonical.

Context (classes : class_table).


Lemma reread_record_free f :
  record_free f = true -> forall x x', reread classes f x x' -> x' = x.
Proof.
  induction f as [o m|o sg|o inner IH|o|o|o cls]; intros Hf x x' H;
    try discriminate; inversion H; subst; try reflexivity.
  f_equal. cbn [record_free] in Hf.
  match goal with
  | HF : Forall2 _ _ _ |- _ =>
      induction HF as [|y y' l0 l0' Hy _ IHl]; [reflexivity|]
  end.
  rewrite (IH Hf _ _ Hy). f_equal. apply IHl. constructor.
  inversion H; subst.
  match goal with
  | HF : Forall2 _ (_ :: _) (_ :: _) |- _ => now inversion HF
  end.
Qed.

Lemma class_name_not_Instance c d t :
  (String.length t < 8)%nat -> class_name (VInstance c d) <> t.
Proof.
  intros Hl E. apply (f_equal String.length) in E. cbn [class_name] in E.
  rewrite string_length_app in E. cbn [String.length] in E. lia.
Qed.

(** For a field without records, passing the checks is being valid. *)
Lemma record_free_valid f :
  record_free f = true ->
  forall x, check f x = Ok tt -> check_type f x = Ok tt -> valid classes f x.
Proof.
  induction f as [o m|o sg|o inner IH|o|o|o cls]; intros Hf x Hc Ht;
    try discriminate;
    try (apply check_type_class_name in Ht as Hcl;
         destruct x; try discriminate Hcl;
         [now constructor
         |exfalso; eapply class_name_not_Instance; [|exact Hcl]; cbn; lia]).
  cbn [record_free] in Hf. cbn [check_type] in Ht.
  destruct x; try discriminate. constructor; [|exact Hc].
  cbn [check py_iter] in Hc. cbn [mbind result_bind] in Hc.
  apply for_each_Ok in Hc, Ht. apply Forall_forall. intros y Hy.
  pose proof (proj1 (Forall_forall _ _) Hc y Hy) as Hcy.
  pose proof (proj1 (Forall_forall _ _) Ht y Hy) as Hty.
  cbn in Hcy, Hty. apply prepend_Ok in Hcy, Hty. now apply IH.
Qed.






End Canonical.

(** A field without records reads back exactly what was written (lines
    349-370, 399-455): for a [String], [Integer], [Boolean] or [Bytes]
    field, or a [List] of such at any depth, an object that passes [check]
    and [check_type] and that [serialize] accepts comes back from
    [deserialize] as the very same object, a list with the same items in
    the same order. *)
Theorem plain_round_trip (classes : class_table) (f : Field) (x : value)
  (data : bytes) :
  record_free f = true ->
  check f x = Ok tt -> check_type f x = Ok tt ->
  serialize classes x f = Ok data ->
  deserialize classes f data = Ok x.
Proof.
  intros Hf Hc Ht Hs.
  pose proof (record_free_valid classes f Hf x Hc Ht) as Hv.
  destruct (roundtrip_value classes (S (value_size x)) f x data
              ltac:(lia) Hv Hs) as (x' & Hd & Hr).
  now rewrite (reread_record_free classes f Hf x x' Hr) in Hd.
Qed.

Lemma plain_round_trip_witness :
  deserialize sample_classes (FList (required 1) (FInteger (required 0) true))
    [x01; x01; x01; x01; x02; x01; x03]%byte
  = Ok (VList [VInt 1; VInt 2; VInt 3]).
Proof.
  apply (plain_round_trip sample_classes
           (FList (required 1) (FInteger (required 0) true))
           (VList [VInt 1; VInt 2; VInt 3])); reflexivity.
Defined.



(** ** Attributes that are no fields *)

Section OtherAttributes.

Context (classes : class_table).



End OtherAttributes.



(** ** Framing *)

(** The length prefix can be told apart from what follows (lines 290-297,
    311-318): if two buffers that each start with an encoded length are
    equal, the lengths are equal and so are the rests.  No encoded length
    is the beginning of another. *)
Theorem length_prefix_unique (n m : Z) (e e' r r' : bytes) :
  1 <= n -> 1 <= m ->
  encode_length n = Ok e -> encode_length m = Ok e' ->
  e ++ r = e' ++ r' ->
  n = m /\ e = e' /\ r = r'.
Proof.
  intros Hn Hm He He' H.
  pose proof (decode_length_encode n e [] r 0 Hn He eq_refl) as D.
  pose proof (decode_length_encode m e' [] r' 0 Hm He' eq_refl) as D'.
  cbn [app] in D, D'. rewrite H, D' in D. injection D as <- _.
  rewrite He in He'. injection He' as <-.
  split; [reflexivity|]. split; [reflexivity|]. now apply app_inv_head in H.
Qed.

Lemma length_prefix_unique_witness :
  300 = 300 /\ [xfb; x01; x2c]%byte = [xfb; x01; x2c]%byte
  /\ [x07%byte] = [x07%byte].
Proof.
  apply (length_prefix_unique 300 300 [xfb; x01; x2c]%byte [xfb; x01; x2c]%byte
           [x07%byte] [x07%byte]); try lia; reflexivity.
Defined.

(** [decode_length] does not insist on the form that [encode_length]
    writes (lines 311-318, with their TODO): a first byte [0xf9 + k] with
    [k] from 1 to 6 is followed by [k] bytes that may hold any number,
    small ones and leading zeros included.  The length 5 is read from
    [0xfa 0x05] as well as from [0x05]. *)
Theorem decode_length_long_form (k n : Z) (post : bytes) :
  1 <= k <= 6 -> 0 <= n < 256 ^ k ->
  decode_length (byte.of_Z (0xf9 + k) :: big_endian (Z.to_nat k) n ++ post) 0
  = (n, 1 + k).
Proof.
  intros Hk Hn.
  rewrite (decode_length_eq _ 0 (byte.of_Z (0xf9 + k))); [|lia|reflexivity].
  rewrite byte.unsigned_of_Z. unfold byte.wrap.
  rewrite Z.mod_small by lia.
  destruct (Z.ltb_spec (0xf9 + k) 0xfa); [lia|]. cbv zeta.
  replace (0xf9 + k - 0xf9) with k by lia. f_equal.
  rewrite (slice_mid [byte.of_Z (0xf9 + k)] (big_endian (Z.to_nat k) n) post);
    [| reflexivity | rewrite len_big_endian; unfold len; cbn [length]; lia].
  rewrite <- from_bytes_unsigned. apply from_bytes_big_endian.
  rewrite Z2Nat.id by lia. rewrite <- pow256 by lia. exact Hn.
Qed.

Lemma decode_length_long_form_witness :
  decode_length [xfa; x05]%byte 0 = (5, 2)
  /\ encode_length 5 = Ok [x05%byte] /\ decode_length [x05%byte] 0 = (5, 1).
Proof.
  split; [|split; reflexivity].
  apply (decode_length_long_form 1 5 []); [lia|]. simpl. lia.
Defined.

(** A buffer that ends in the middle of a chunk is read without complaint
    (lines 320-325): the slice stops where the buffer stops, so a chunk
    announced as [n] bytes long comes out with the bytes that are there,
    and as the empty chunk if there are none. *)
Theorem truncated_chunk_accepted (m : byte) (n : Z) (payload : bytes) :
  1 <= n <= 0xf9 -> len payload <= n ->
  chunks (m :: byte.of_Z n :: payload) = Ok [payload].
Proof.
  intros Hn Hp. unfold chunks. cbn [length chunks_loop].
  assert (len (m :: byte.of_Z n :: payload) = 2 + len payload) as Hlen
    by (rewrite !len_cons; lia).
  pose proof (len_nonneg payload) as H0.
  rewrite Hlen. destruct (Z.ltb_spec 1 (2 + len payload)); [|lia].
  rewrite (decode_length_eq _ 1 (byte.of_Z n)); [|lia|reflexivity].
  rewrite byte.unsigned_of_Z. unfold byte.wrap. rewrite Z.mod_small by lia.
  destruct (Z.ltb_spec n 0xfa); [|lia].
  assert (slice (m :: byte.of_Z n :: payload) (1 + 1) (1 + 1 + n) = payload) as ->.
  { rewrite slice_nonneg by lia. replace (Z.to_nat (1 + 1)) with 2%nat by lia.
    cbn [drop]. apply take_ge. unfold len in Hp. lia. }
  destruct (Z.ltb_spec (1 + 1 + n) (2 + len payload)); [lia|reflexivity].
Qed.

Lemma truncated_chunk_accepted_witness :
  chunks [x01; x05; x41; x42]%byte = Ok [[x41; x42]%byte].
Proof.
  apply (truncated_chunk_accepted x01 5 [x41; x42]%byte); [lia|].
  unfold len. simpl. lia.
Defined.

(** Splitting what [Field.serialize] joined (lines 299-308, 320-325): the
    serialization of an instance, of whatever content, splits into one
    chunk for each field of the class, in the order of the fields: the
    empty chunk for an attribute that is [None], and otherwise what the
    field's own [serialize] returned for the attribute. *)
Theorem chunks_recover_payloads (classes : class_table) (o : options)
  (cls c : string) (d : dict) (fields : list (string * Field)) (data : bytes) :
  get_fields classes cls = Ok fields ->
  serialize classes (VInstance c d) (FRecord o cls) = Ok data ->
  exists array,
    chunks data = Ok array
    /\ length array = length fields
    /\ Forall2 (fun kf item =>
                  exists attr, dict_get d kf.1 = Some attr
                    /\ ((attr = VNone /\ item = [])
                        \/ (attr <> VNone /\ item <> []
                            /\ serialize classes attr kf.2 = Ok item)))
         fields array.
Proof.
  intros Hf Hs. rewrite serialize_instance, Hf in Hs. cbn in Hs. inv_bind Hs.
  rename a into body. injection Hs as <-. unfold chunks.
  destruct (chunks_loop_payloads (fun field attr => serialize classes attr field)
              d fields ltac:(intros ? ? ?; apply serialize_len)
              body [x01%byte] (length (x01%byte :: body)) E
              ltac:(unfold len; cbn [length]; lia))
    as (array & Hloop & HF).
  change ([x01%byte] ++ body) with (x01%byte :: body) in Hloop.
  change (len [x01%byte]) with 1 in Hloop.
  exists array. split; [exact Hloop|].
  split; [symmetry; eapply Forall2_length; exact HF|].
  eapply Forall2_impl; [exact HF|].
  intros kf item (attr & Ha & Hc). exists attr. split; [exact Ha|].
  destruct Hc as [Hc|(Hn & Hi)]; [now left|]. right.
  split; [exact Hn|]. split; [|exact Hi].
  intros ->. apply serialize_len in Hi. unfold len in Hi. cbn in Hi. lia.
Qed.

Lemma chunks_recover_payloads_witness :
  exists array,
    chunks [x01; x06; x01; x00; x00; x02; x01; x6c; x00; x02; x01; x72]%byte
    = Ok array
    /\ length array = length Tree_fields
    /\ Forall2 (fun kf item =>
                  exists attr,
                    dict_get [("value", VStr (str "r")); ("left", Tree_leaf);
                              ("right", VNone)] kf.1 = Some attr
                    /\ ((attr = VNone /\ item = [])
                        \/ (attr <> VNone /\ item <> []
                            /\ serialize sample_classes attr kf.2 = Ok item)))
         Tree_fields array.
Proof.
  apply (chunks_recover_payloads sample_classes (required 0) "Tree" "Tree").
  - vm_compute. reflexivity.
  - vm_compute. reflexivity.
Defined.

(** ** Empty buffers and [None] in lists *)

Section EmptyBuffers.

Context (classes : class_table).

Lemma deserialize_not_None f data x :
  deserialize classes f data = Ok x -> x <> VNone.
Proof.
  unfold deserialize. cbn [deserialize_fuel].
  destruct f as [o m|o sg|o inner|o|o|o cls]; intros H; try (now injection H as <-).
  - unfold String_deserialize in H. inv_bind H. now injection H as <-.
  - inv_bind H. now injection H as <-.
  - inv_bind H. inv_bind H. inv_bind H. rewrite make_eq in H. inv_bind H.
    now injection H as <-.
Qed.

Lemma List_loop_absent (des : bytes -> result value) x :
  des [] = Ok x ->
  forall k pre fuel, (k <= fuel)%nat ->
    List_loop des fuel (pre ++ replicate k x00%byte) (len pre)
    = Ok (replicate k x).
Proof.
  intros Hx. induction k as [|k IH]; intros pre fuel Hk.
  - cbn [replicate]. rewrite app_nil_r.
    destruct fuel; cbn [List_loop];
      (destruct (Z.ltb_spec (len pre) (len pre)); [lia|reflexivity]).
  - destruct fuel as [|fuel]; [lia|]. cbn [replicate List_loop].
    rewrite len_app, len_cons. pose proof (len_nonneg (replicate k x00%byte)).
    destruct (Z.ltb_spec (len pre) (len pre + (1 + len (replicate k x00%byte))));
      [|lia].
    destruct (decode_absent pre (replicate k x00%byte) (len pre) eq_refl)
      as [Hd Hs].
    change (pre ++ x00%byte :: replicate k x00%byte)
      with (pre ++ [x00%byte] ++ replicate k x00%byte).
    rewrite Hd, Hs, Hx. cbn [mbind result_bind].
    replace (len pre + 1 + 0) with (len (pre ++ [x00%byte]))
      by (rewrite len_app; unfold len; cbn [length]; lia).
    rewrite (app_assoc pre [x00%byte]). rewrite IH by lia. reflexivity.
Qed.

Lemma List_chunks_absent (ser : value -> result bytes) k :
  List_chunks ser (replicate k VNone) = Ok (replicate k x00%byte).
Proof.
  induction k as [|k IH]; [reflexivity|].
  cbn [replicate List_chunks]. unfold chunk_of at 1. cbn [is_None].
  cbn [mbind result_bind]. now rewrite IH.
Qed.

End EmptyBuffers.


(** [None] among the items of a list (lines 411-412, 431-434):
    [List.serialize] writes the byte [0x00] for it, as [Field.serialize]
    does for an absent attribute, but [List.deserialize] has no test for
    the empty chunk and hands it to the inner field.  A list of [n] times
    [None] is read back as [n] times what the inner field makes of the
    empty buffer, which is never [None]. *)
Theorem List_None_not_preserved (classes : class_table) (o : options)
  (inner : Field) (n : nat) (x : value) :
  deserialize classes inner [] = Ok x ->
  serialize classes (VList (replicate n VNone)) (FList o inner)
  = Ok (x01%byte :: replicate n x00%byte)
  /\ deserialize classes (FList o inner) (x01%byte :: replicate n x00%byte)
     = Ok (VList (replicate n x))
  /\ x <> VNone.
Proof.
  intros Hx. split; [|split].
  - rewrite serialize_list, List_chunks_absent. reflexivity.
  - pose proof (List_loop_absent (deserialize_fuel classes (S n) inner) x
                  ltac:(rewrite deserialize_fuel_deserialize by (cbn; lia);
                        exact Hx)
                  n [x01%byte] (S n) ltac:(lia)) as Hloop.
    change ([x01%byte] ++ replicate n x00%byte)
      with (x01%byte :: replicate n x00%byte) in Hloop.
    change (len [x01%byte]) with 1 in Hloop.
    unfold deserialize.
    change (length (x01%byte :: replicate n x00%byte))
      with (S (length (replicate n x00%byte))).
    rewrite length_replicate.
    change (deserialize_fuel classes (S (S n)) (FList o inner)
              (x01%byte :: replicate n x00%byte))
      with (array ← List_loop (deserialize_fuel classes (S n) inner) (S n)
                      (x01%byte :: replicate n x00%byte) 1;
            Ok (VList array)).
    now rewrite Hloop.
  - now apply deserialize_not_None in Hx.
Qed.

Lemma List_None_not_preserved_witness :
  serialize sample_classes (VList (replicate 2 VNone))
    (FList (required 1) (FInteger (required 0) true))
  = Ok (x01%byte :: replicate 2 x00%byte)
  /\ deserialize sample_classes (FList (required 1) (FInteger (required 0) true))
       (x01%byte :: replicate 2 x00%byte)
     = Ok (VList (replicate 2 (VInt 0)))
  /\ VInt 0 <> VNone.
Proof.
  apply (List_None_not_preserved sample_classes (required 1)
           (FInteger (required 0) true) 2 (VInt 0)).
  reflexivity.
Defined.

(** ** What [serialize] can raise *)

Section SerializeErrors.

Context (classes : class_table).

Lemma fine_marker (m : result bytes) :
  fine m -> fine (chunks ← m; Ok (x01%byte :: chunks)).
Proof. now destruct m. Qed.

Lemma utf8_encode_fine s : fine (utf8_encode s).
Proof.
  induction s as [|c s IH]; cbn [utf8_encode]; [exact I|].
  assert (fine (utf8_encode_char c)) as Hc.
  { unfold utf8_encode_char.
    repeat match goal with
           | |- context [if ?c then _ else _] => destruct c
           end; cbn; unfold serialize_error; auto. }
  destruct (utf8_encode_char c) as [e| |]; cbn [mbind result_bind];
    [|exact Hc|exact Hc].
  now destruct (utf8_encode s).
Qed.

Lemma Integer_serialize_fine signed i : fine (Integer_serialize signed (VInt i)).
Proof.
  rewrite Integer_serialize_width. pose proof (Integer_width_pos signed i).
  unfold to_bytes. destruct (Z.ltb_spec (Integer_width signed i) 0); [lia|].
  repeat match goal with
         | |- context [if ?c then _ else _] => destruct c
         end; cbn; unfold serialize_error; auto.
Qed.

Lemma encode_length_fine n : 0 <= n -> fine (encode_length n).
Proof.
  intros H. rewrite encode_length_eq by exact H. cbv zeta.
  repeat match goal with
         | |- context [if ?c then _ else _] => destruct c
         end; cbn; unfold serialize_error; auto.
Qed.

Lemma chunk_of_fine (ser : value -> result bytes) x :
  fine (ser x) -> fine (chunk_of ser x).
Proof.
  intros H. unfold chunk_of. destruct (is_None x); [exact I|].
  destruct (ser x) as [data| |]; cbn [mbind result_bind]; try exact H.
  pose proof (encode_length_fine (len data) (len_nonneg data)) as He.
  now destruct (encode_length (len data)).
Qed.

Lemma List_chunks_fine (ser : value -> result bytes) l :
  Forall (fun x => fine (ser x)) l -> fine (List_chunks ser l).
Proof.
  induction 1 as [|x l Hx _ IH]; cbn [List_chunks]; [exact I|].
  apply chunk_of_fine in Hx.
  destruct (chunk_of ser x); cbn [mbind result_bind]; try exact Hx.
  now destruct (List_chunks ser l).
Qed.

Lemma Field_chunks_fine (ser : Field -> value -> result bytes) d
  (fields : list (string * Field)) :
  Forall (fun kf => exists attr, dict_get d kf.1 = Some attr
                      /\ fine (chunk_of (ser kf.2) attr)) fields ->
  fine (Field_chunks ser d fields).
Proof.
  induction 1 as [|[key field] fields (attr & Ha & Hx) _ IH]; [exact I|].
  rewrite Field_chunks_cons. cbn [fst snd] in Ha, Hx. rewrite Ha.
  destruct (chunk_of (ser field) attr); cbn [mbind result_bind]; try exact Hx.
  now destruct (Field_chunks ser d fields).
Qed.

Lemma serialize_fine n :
  forall f x, (value_size x < n)%nat -> valid classes f x ->
              fine (serialize classes x f).
Proof.
  induction n as [|n IH]; intros f x Hsize Hv; [lia|].
  inversion Hv; subst.
  - cbn [serialize String_serialize]. pose proof (utf8_encode_fine s) as H'.
    now destruct (utf8_encode s).
  - apply Integer_serialize_fine.
  - exact I.
  - exact I.
  - rewrite serialize_list. apply fine_marker, List_chunks_fine.
    apply Forall_forall. intros y Hy. apply IH.
    + pose proof (value_size_item y l Hy). lia.
    + now apply (proj1 (Forall_forall _ _) H).
  - rewrite serialize_instance, H. cbn [mbind result_bind].
    apply fine_marker, Field_chunks_fine.
    eapply Forall_impl; [exact H0|].
    intros kf (attr & Ha & Hc). exists attr. split; [exact Ha|].
    destruct Hc as [(-> & _)|[_ Hva]]; [exact I|].
    apply chunk_of_fine, IH; [|exact Hva].
    pose proof (value_size_attr cls d kf.1 attr Ha). lia.
Qed.

End SerializeErrors.

(** What [serialize] can raise on a valid object (lines 289-308, 349-351,
    363-367, 399-417): [OverflowError] for an integer that does not fit,
    [UnicodeEncodeError] for a character that UTF-8 cannot encode, or the
    [ValidationError] of a payload too long for the length prefix, and
    nothing else: no [AttributeError] and no [TypeError]. *)
Theorem serialize_raises (classes : class_table) (f : Field) (x : value) :
  valid classes f x ->
  (forall e, serialize classes x f = Raise e -> serialize_error e)
  /\ serialize classes x f <> OutOfFuel.
Proof.
  intros Hv. pose proof (serialize_fine classes (S (value_size x)) f x
                           ltac:(lia) Hv) as H.
  split.
  - intros e E. now rewrite E in H.
  - intros E. now rewrite E in H.
Qed.

Lemma Gauge_negative_valid :
  valid sample_classes (FRecord (required 0) "Gauge") Gauge_negative.
Proof.
  apply (make_valid sample_classes (required 0) "Gauge"
           [("level", FInteger (required 0) false)] [("level", VInt (-1))]).
  - vm_compute. reflexivity.
  - repeat constructor.
  - repeat constructor.
  - vm_compute. reflexivity.
Qed.

Lemma serialize_raises_witness :
  (forall e,
      serialize sample_classes Gauge_negative (FRecord (required 0) "Gauge")
      = Raise e -> serialize_error e)
  /\ serialize sample_classes Gauge_negative (FRecord (required 0) "Gauge")
     <> OutOfFuel.
Proof.
  apply (serialize_raises sample_classes (FRecord (required 0) "Gauge")
           Gauge_negative).
  exact Gauge_negative_valid.
Defined.

(** ** Size on the wire *)

(** [max_length] counts characters, not bytes (lines 345-351): a string
    that passes the [check] of a [String] field with [max_length] [m] has
    at most [m] characters, and what [serialize] returns for it has at most
    [4 * m + 1] bytes, the marker byte included. *)
Theorem String_wire_size (classes : class_table) (o : options) (m : Z)
  (s : list Z) (data : bytes) :
  check (FString o (Some m)) (VStr s) = Ok tt ->
  serialize classes (VStr s) (FString o (Some m)) = Ok data ->
  len s <= m /\ len s + 1 <= len data <= 4 * m + 1.
Proof.
  intros Hc Hs. cbn [check py_len mbind result_bind] in Hc.
  destruct (Z.ltb_spec m (len s)); [discriminate|].
  rewrite serialize_String in Hs. cbn [String_serialize] in Hs.
  inv_bind Hs. injection Hs as <-. apply utf8_encode_len in E.
  rewrite len_cons. lia.
Qed.

Lemma String_wire_size_witness :
  len [0x20AC; 0x41] <= 3
  /\ len [0x20AC; 0x41] + 1 <= len [x01; xe2; x82; xac; x41]%byte <= 4 * 3 + 1.
Proof.
  apply (String_wire_size sample_classes (required 0) 3 [0x20AC; 0x41]);
    reflexivity.
Defined.

